(** * Settlement of shared trip expenses ([app.py])

    A shallow embedding of [resolve_expenses] and of the [Payer] data class,
    together with the properties of the greedy settlement loop.

    Numbers.  The program computes on Python [float]s, that is on IEEE
    binary64 numbers.  A float is embedded as the rational ([Q], kept in
    lowest terms) it denotes, and the program is embedded in two arithmetics.

    - Binary64 arithmetic ([fp_resolve_expenses] and the other [fp_]
      functions): [x - y] and [x + y] are the exact results rounded to the
      nearest double, ties to even ([b64]); [round(x, n)] is the double
      nearest to the exact value of [x] rounded to [n] decimals, ties to
      even, as CPython computes it; [abs], [min], unary minus and the
      comparisons are exact on doubles.  Infinities and NaNs are left out.
    - Exact arithmetic ([resolve_expenses] and the functions without
      prefix): the same program with no rounding in [-] and [+], and with
      [round] returning the decimal itself.  The two runs agree as long as
      every result is a double; the exact run is also what the binary64 run
      is measured against.

    Printing.  The transfers are printed with [rprint], which reads its
    argument as console markup and raises on text it cannot read as such.
    In the binary64 embedding the printer is a parameter and the result
    records whether it raised.

    Objects.  [payers] is a Python list of mutable [Payer] objects.  The two
    loops walk the same list (forwards and backwards) and update the objects
    in place, so the list is embedded as a store indexed by position and the
    loops carry positions: reading [payer.cashflow] is a lookup in the current
    store, and [payer.cashflow -= amount] is an update at that position. *)

From Stdlib Require Import QArith Qabs Qminmax Qround Qreduction Lqa Qpower.
From stdpp Require Import base list strings sorting.

Local Open Scope Q_scope.

(** ** Numbers, in exact arithmetic

    [round] gives the decimal nearest to its argument, [fsub] and [fadd] the
    exact difference and sum. *)

Definition PRECISION : nat := 2.

(** [x < y] on numbers, as a test. *)
Definition Qlt_bool (x y : Q) : bool := negb (Qle_bool y x).

(** [10 ** ndigits]. *)
Fixpoint pow10 (ndigits : nat) : positive :=
  match ndigits with
  | O => 1%positive
  | S n => (10 * pow10 n)%positive
  end.

(** Nearest integer, ties to the even one. *)
Definition round_half_even (t : Q) : Z :=
  let f := Qfloor t in
  match Qcompare (t - inject_Z f) (1 # 2) with
  | Lt => f
  | Gt => (f + 1)%Z
  | Eq => if Z.even f then f else (f + 1)%Z
  end.

(** [round(number, ndigits)] in exact arithmetic: the decimal nearest to
    [number], ties to even.  On floats this decimal is rounded once more, to
    a double ([fp_round]). *)
Definition round (number : Q) (ndigits : nat) : Q :=
  Qred (round_half_even (number * inject_Z (Z.pos (pow10 ndigits))) # pow10 ndigits).

(** [x - y] and [x + y] in exact arithmetic; [fp_sub] and [fp_add] are the
    operations on floats. *)
Definition fsub (x y : Q) : Q := Qred (x - y).
Definition fadd (x y : Q) : Q := Qred (x + y).

(** ** The [Payer] data class *)

Record Payer := mkPayer {
  name : string;
  spent : Q;
  cashflow : Q
}.

(** Property [owes_money]: [round(self.cashflow, PRECISION) > 0]. *)
Definition owes_money (p : Payer) : bool :=
  Qlt_bool 0 (round (cashflow p) PRECISION).

(** Property [is_owed_money]: [round(self.cashflow, PRECISION) < 0]. *)
Definition is_owed_money (p : Payer) : bool :=
  Qlt_bool (round (cashflow p) PRECISION) 0.

(** One printed line [f"{payer.name} {amount_exchanged} -> {recipient.name}"]. *)
Record Transfer := mkTransfer {
  t_from : string;
  t_amount : Q;
  t_to : string
}.

(** ** [payers.sort(key=lambda p: -p.cashflow)]

    [list.sort] is stable and compares keys with [<] only.  A stable sort has
    one possible result, which insertion from the right computes: an element
    goes in front of the first element whose key is not smaller than its own. *)

Definition sort_key (p : Payer) : Q := - cashflow p.

Fixpoint insert_sorted (x : Payer) (l : list Payer) : list Payer :=
  match l with
  | [] => [x]
  | y :: l' =>
      if Qlt_bool (sort_key y) (sort_key x) then y :: insert_sorted x l'
      else x :: y :: l'
  end.

Fixpoint sort_payers (l : list Payer) : list Payer :=
  match l with
  | [] => []
  | x :: l' => insert_sorted x (sort_payers l')
  end.

(** ** The settlement loops *)

(** What the run has produced so far: the lines printed by the loop body and
    the current contents of the [payers] list. *)
Record State := mkState {
  printed : list Transfer;
  payers : list Payer
}.

Definition pay (amount : Q) (p : Payer) : Payer :=
  mkPayer (name p) (spent p) (fsub (cashflow p) amount).

Definition receive (amount : Q) (p : Payer) : Payer :=
  mkPayer (name p) (spent p) (fadd (cashflow p) amount).

(** [amount_exchanged], after both assignments. *)
Definition amount_exchanged (payer recipient : Payer) : Q :=
  round (Qmin (Qabs (cashflow payer)) (Qabs (cashflow recipient))) PRECISION.

(** The mutation at the end of the loop body: the payer's object first,
    then the recipient's (which is the same object when [i = j]). *)
Definition apply_transfer (i j : nat) (amount : Q) (ps : list Payer) : list Payer :=
  alter (receive amount) j (alter (pay amount) i ps).

(** Body of the inner loop for the payer at position [i] and the recipient at
    position [j], in exact arithmetic and with a printer that takes the
    line; [fp_pair_step] is the body on floats with any printer. *)
Definition pair_step (i j : nat) (s : State) : State :=
  match payers s !! i, payers s !! j with
  | Some payer, Some recipient =>
      let amount := amount_exchanged payer recipient in
      if Qeq_bool amount 0 then s
      else mkState (printed s ++ [mkTransfer (name payer) amount (name recipient)])
                   (apply_transfer i j amount (payers s))
  | _, _ => s
  end.

(** One pull from [filter(lambda p: p.is_owed_money, reversed(payers))]: the
    test is made on the object as it is when the iterator reaches it. *)
Definition recipient_step (i : nat) (s : State) (j : nat) : State :=
  match payers s !! j with
  | Some recipient => if is_owed_money recipient then pair_step i j s else s
  | None => s
  end.

(** The inner [for] over the positions [js]. *)
Definition inner_loop (i : nat) (js : list nat) (s : State) : State :=
  fold_left (recipient_step i) js s.

(** [reversed(payers)] visits the positions from the last to the first. *)
Definition reversed_positions (s : State) : list nat :=
  rev (seq 0 (length (payers s))).

(** One pull from [filter(lambda p: p.owes_money, payers)], followed by the
    whole inner loop when the test passes. *)
Definition payer_step (s : State) (i : nat) : State :=
  match payers s !! i with
  | Some payer =>
      if owes_money payer then inner_loop i (reversed_positions s) s else s
  | None => s
  end.

(** The outer [for] over [positions]. *)
Definition outer_loop (positions : list nat) (s : State) : State :=
  fold_left payer_step positions s.

(** The rows of the [expenses] frame: [(name, spent, cashflow)]. *)
Definition Row : Type := string * Q * Q.

Definition payer_of_row (r : Row) : Payer :=
  let '(n, sp, cf) := r in mkPayer n sp cf.

(** [resolve_expenses]: the result holds the transfer lines in the order
    they are printed and the payers as the final report lists them. *)
Definition resolve_expenses (expenses : list Row) : State :=
  let ps := sort_payers (map payer_of_row expenses) in
  outer_loop (seq 0 (length ps)) (mkState [] ps).

(** ** Vocabulary of the properties *)

(** Half a unit in the last place kept by [round(_, PRECISION)], that is
    [10 ** -PRECISION / 2] with [PRECISION = 2]. *)
Definition half_unit : Q := 1 # 200.

(** The multiples of [10 ** -PRECISION]. *)
Definition on_grid (x : Q) : Prop := exists k : Z, x == k # pow10 PRECISION.

(** Sum of the balances of a list of payers. *)
Definition total (ps : list Payer) : Q :=
  fold_right Qplus 0 (map cashflow ps).

(** One exchange of the loop body, by positions in the [payers] list. *)
Record Event := mkEvent {
  ev_payer : nat;
  ev_recipient : nat;
  ev_amount : Q
}.

Definition apply_event (e : Event) (ps : list Payer) : list Payer :=
  apply_transfer (ev_payer e) (ev_recipient e) (ev_amount e) ps.

Definition name_at (ps : list Payer) (k : nat) : string :=
  from_option name EmptyString (ps !! k).

(** The line printed for an exchange. *)
Definition line_of (ps : list Payer) (e : Event) : Transfer :=
  mkTransfer (name_at ps (ev_payer e)) (ev_amount e) (name_at ps (ev_recipient e)).

(** An exchange as the loop body makes it in the store [ps]: the payer owes
    money, the recipient is owed money, and the amount is the rounded smaller
    absolute balance, which is not zero. *)
Definition enabled (ps : list Payer) (e : Event) : Prop :=
  exists payer recipient,
    ps !! ev_payer e = Some payer /\ ps !! ev_recipient e = Some recipient
    /\ owes_money payer = true /\ is_owed_money recipient = true
    /\ ev_amount e = amount_exchanged payer recipient
    /\ ~ ev_amount e == 0.

(** A sequence of exchanges, each made in the store left by the one before
    and each satisfying [P] in the store where it is made. *)
Inductive exchanges (P : list Payer -> Event -> Prop) :
    list Payer -> list Event -> list Payer -> Prop :=
  | run_nil ps : exchanges P ps [] ps
  | run_cons ps e evs ps' :
      P ps e -> exchanges P (apply_event e ps) evs ps' ->
      exchanges P ps (e :: evs) ps'.

(** The sequences the loop body can make. *)
Abbreviation run := (exchanges enabled).

(** The order of the visits: payers by increasing position and, for one
    payer, recipients by decreasing position. *)
Definition before (e1 e2 : Event) : Prop :=
  (ev_payer e1 < ev_payer e2)%nat
  \/ (ev_payer e1 = ev_payer e2 /\ (ev_recipient e2 < ev_recipient e1)%nat).

(** No record at position [k] owes money; no record at all is owed money. *)
Definition settled_at (ps : list Payer) (k : nat) : Prop :=
  forall p, ps !! k = Some p -> owes_money p = false.

Definition no_creditor (ps : list Payer) : Prop :=
  forall j r, ps !! j = Some r -> is_owed_money r = false.

(** Descending balances: [q] may follow [p] in the sorted list. *)
Definition descending (p q : Payer) : Prop := cashflow q <= cashflow p.

(** The records of a list that carry the balance [c], in list order. *)
Definition with_balance (c : Q) (l : list Payer) : list Payer :=
  List.filter (fun p => Qeq_bool (cashflow p) c) l.

Definition all_on_grid (ps : list Payer) : Prop :=
  Forall (fun p => on_grid (cashflow p)) ps.





(** An exchange that moves no balance away from zero, lowers the balance
    of a payer who owes money and raises the balance of a recipient who is
    owed money. *)
Definition toward_zero (ps : list Payer) (e : Event) : Prop :=
  (forall k p p', ps !! k = Some p -> apply_event e ps !! k = Some p' ->
     Qabs (cashflow p') <= Qabs (cashflow p))
  /\ (exists payer payer',
        ps !! ev_payer e = Some payer
        /\ apply_event e ps !! ev_payer e = Some payer'
        /\ owes_money payer = true /\ cashflow payer' < cashflow payer)
  /\ (exists recipient recipient',
        ps !! ev_recipient e = Some recipient
        /\ apply_event e ps !! ev_recipient e = Some recipient'
        /\ is_owed_money recipient = true
        /\ cashflow recipient < cashflow recipient').

(** The input as [resolve_expenses] first stores it, and as the loops find it. *)
Definition input_payers (expenses : list Row) : list Payer :=
  map payer_of_row expenses.

Definition sorted_payers (expenses : list Row) : list Payer :=
  sort_payers (input_payers expenses).

(** The preconditions the specification asks of an input. *)
Definition unique_names (expenses : list Row) : Prop :=
  NoDup (map name (input_payers expenses)).

Definition sum_rounds_to_zero (expenses : list Row) : Prop :=
  round (total (input_payers expenses)) PRECISION == 0.

Definition valid_input (expenses : list Row) : Prop :=
  expenses <> [] /\ unique_names expenses /\ sum_rounds_to_zero expenses.
(** A record that takes part in the settlement: it owes or is owed money. *)
Definition unsettled (p : Payer) : bool := owes_money p || is_owed_money p.

Definition count_unsettled (ps : list Payer) : nat :=
  length (List.filter unsettled ps).

(** ** [main], from the grouped frame on

    [main] reads the file of expenses and groups it by payer; what follows
    works on the grouped frame, one row [(payer, per person spent)] per
    payer, which is the argument here.  The lines [main] prints about the
    totals are left out.  The sum, the quotient and the difference are
    those of exact arithmetic; what is proved of [main] below is about the
    rows and their names, where the arithmetic plays no part. *)

Definition PEOPLE : list string := ["Car"; "JHC"; "CTH"; "Jorrelle"]%string.

Definition Spending : Type := string * Q.

(** One turn of [for p in PEOPLE]: a person missing from the [payer] column
    gets a row with [0.0] appended. *)
Definition add_person (expenses : list Spending) (p : string) : list Spending :=
  if bool_decide (p ∈ map fst expenses) then expenses else expenses ++ [(p, 0)].

Definition add_missing (people : list string) (expenses : list Spending) :
    list Spending :=
  fold_left add_person people expenses.

(** [expenses["per person spent"].sum()]. *)
Definition total_expenses (expenses : list Spending) : Q :=
  Qred (fold_right Qplus 0 (map snd expenses)).

(** [expenses["payer"].n_unique()]. *)
Definition n_unique (expenses : list Spending) : nat :=
  length (remove_dups (map fst expenses)).

(** [total_expenses / expenses["payer"].n_unique()]. *)
Definition owed_per_person (expenses : list Spending) : Q :=
  Qred (total_expenses expenses / inject_Z (Z.of_nat (n_unique expenses))).

(** The column [per person cashflow], [owed_per_person - per person spent]. *)
Definition with_cashflow (expenses : list Spending) : list Row :=
  map (fun r => (fst r, snd r, fsub (owed_per_person expenses) (snd r))) expenses.

(** The frame handed to [resolve_expenses]. *)
Definition prepare (grouped : list Spending) : list Row :=
  with_cashflow (add_missing PEOPLE grouped).

Definition main (grouped : list Spending) : State :=
  resolve_expenses (prepare grouped).

(** ** Binary64 arithmetic

    A double is embedded as the rational it denotes.  [b64 x] is the double
    nearest to [x], ties to the even significand: [x] is scaled by the power
    of two that brings it to 53 bits (or to the spacing [2 ^ -1074] of the
    subnormal numbers), rounded to an integer and scaled back.  Overflow is
    left out: the result is rounded to 53 bits at any size. *)

(** The [e] with [2 ^ e <= a < 2 ^ (e + 1)], for [a > 0]. *)
Definition exponent_of (a : Q) : Z :=
  let l0 := (Z.log2 (Qnum a) - Z.log2 (Z.pos (Qden a)))%Z in
  if Qle_bool (2 ^ l0) a then l0 else (l0 - 1)%Z.

Definition b64 (x : Q) : Q :=
  let x := Qred x in
  if Qeq_bool x 0 then 0
  else
    let e := Z.max (exponent_of (Qabs x) - 52) (-1074) in
    Qred (inject_Z (round_half_even (x / 2 ^ e)) * 2 ^ e).

(** [x - y] and [x + y] on floats. *)
Definition fp_sub (x y : Q) : Q := b64 (x - y).
Definition fp_add (x y : Q) : Q := b64 (x + y).

(** [round(x, n)] on a float: CPython rounds the exact value of [x] to [n]
    decimals, ties to even, and returns the double nearest to that decimal. *)
Definition fp_round (x : Q) (n : nat) : Q := b64 (round x n).

(** [2 ^ -53], the relative error of one rounding. *)
Definition unit_roundoff : Q := 1 # 9007199254740992.

(** ** [resolve_expenses] in binary64 arithmetic, with a printer that can raise

    [rprint] reads its argument as console markup and raises [MarkupError]
    on a tag it cannot close; the names of the payers are part of the line.
    [markup_ok] tells the lines the printer accepts.  An exception leaves
    [resolve_expenses] at once: [raised] records it, the lines printed and
    the balances stay as they were, and nothing more is run. *)

Definition fp_owes_money (p : Payer) : bool :=
  Qlt_bool 0 (fp_round (cashflow p) PRECISION).

Definition fp_is_owed_money (p : Payer) : bool :=
  Qlt_bool (fp_round (cashflow p) PRECISION) 0.

Record Outcome := mkOutcome {
  out_printed : list Transfer;
  out_payers : list Payer;
  raised : bool
}.

Definition fp_pay (amount : Q) (p : Payer) : Payer :=
  mkPayer (name p) (spent p) (fp_sub (cashflow p) amount).

Definition fp_receive (amount : Q) (p : Payer) : Payer :=
  mkPayer (name p) (spent p) (fp_add (cashflow p) amount).

Definition fp_amount_exchanged (payer recipient : Payer) : Q :=
  fp_round (Qmin (Qabs (cashflow payer)) (Qabs (cashflow recipient))) PRECISION.

Definition fp_apply_transfer (i j : nat) (amount : Q) (ps : list Payer) : list Payer :=
  alter (fp_receive amount) j (alter (fp_pay amount) i ps).

(** Body of the inner loop: the line goes to the printer before the two
    balances are touched. *)
Definition fp_pair_step (markup_ok : Transfer -> bool) (i j : nat) (o : Outcome) : Outcome :=
  if raised o then o
  else
    match out_payers o !! i, out_payers o !! j with
    | Some payer, Some recipient =>
        let amount := fp_amount_exchanged payer recipient in
        if Qeq_bool amount 0 then o
        else
          let line := mkTransfer (name payer) amount (name recipient) in
          if markup_ok line
          then mkOutcome (out_printed o ++ [line])
                 (fp_apply_transfer i j amount (out_payers o)) false
          else mkOutcome (out_printed o) (out_payers o) true
    | _, _ => o
    end.

Definition fp_recipient_step (markup_ok : Transfer -> bool) (i : nat) (o : Outcome)
    (j : nat) : Outcome :=
  if raised o then o
  else
    match out_payers o !! j with
    | Some recipient =>
        if fp_is_owed_money recipient then fp_pair_step markup_ok i j o else o
    | None => o
    end.

Definition fp_inner_loop (markup_ok : Transfer -> bool) (i : nat) (js : list nat)
    (o : Outcome) : Outcome :=
  fold_left (fp_recipient_step markup_ok i) js o.

Definition fp_payer_step (markup_ok : Transfer -> bool) (o : Outcome) (i : nat) : Outcome :=
  if raised o then o
  else
    match out_payers o !! i with
    | Some payer =>
        if fp_owes_money payer
        then fp_inner_loop markup_ok i (rev (seq 0 (length (out_payers o)))) o
        else o
    | None => o
    end.

Definition fp_outer_loop (markup_ok : Transfer -> bool) (positions : list nat)
    (o : Outcome) : Outcome :=
  fold_left (fp_payer_step markup_ok) positions o.

(** [resolve_expenses], up to the final report: the lines handed to the
    printer, the payers as they stand, and whether the printer raised. *)
Definition fp_resolve_expenses (markup_ok : Transfer -> bool) (expenses : list Row) :
    Outcome :=
  let ps := sort_payers (map payer_of_row expenses) in
  fp_outer_loop markup_ok (seq 0 (length ps)) (mkOutcome [] ps false).

(** A printer that accepts every line: names without markup. *)
Definition plain_text (t : Transfer) : bool := true.

(** ** The settlement in the words of the specification

    Steps 2 to 5 of the algorithm of the specification, on the sorted
    records: the debtors are taken in the sorted order; for each one the
    candidate creditors are taken in the reverse of that order; a record is
    a debtor, or a creditor, when its balance as it stands at the visit
    rounds above, or below, zero.  Step 4, the exchange of one pair, is
    [fp_pair_step]. *)


Definition creditor_now (o : Outcome) (j : nat) : bool :=
  match out_payers o !! j with
  | Some r => Qlt_bool (fp_round (cashflow r) PRECISION) 0
  | None => false
  end.




(** ** The binary64 run next to the exact run *)

(** Rows of whole cents as the program receives them: every balance is the
    double nearest to it. *)
Definition to_double (p : Payer) : Payer :=
  mkPayer (name p) (spent p) (b64 (cashflow p)).

Definition double_row (r : Row) : Row :=
  let '(n, sp, cf) := r in (n, sp, b64 cf).

(** A payer of the binary64 run next to the payer of the exact run. *)
Definition close (E : Q) (x p : Payer) : Prop :=
  name x = name p /\ spent x = spent p /\ Qabs (cashflow x - cashflow p) <= E.

(** A line of the binary64 run next to the line of the exact run. *)
Definition line_close (M : Q) (t' t : Transfer) : Prop :=
  t_from t' = t_from t /\ t_to t' = t_to t /\ t_amount t' = b64 (t_amount t)
  /\ 0 <= t_amount t <= M.

(** Balances of whole cents, of size at most [M]. *)
Definition within (M : Q) (ps : list Payer) : Prop :=
  Forall (fun p => on_grid (cashflow p) /\ Qabs (cashflow p) <= M) ps.

(** The binary64 run has not raised and follows the exact run, balance by
    balance up to [E] and line by line. *)
Definition tracks (M E : Q) (o : Outcome) (s : State) : Prop :=
  raised o = false
  /\ Forall2 (close E) (out_payers o) (payers s)
  /\ Forall2 (line_close M) (out_printed o) (printed s)
  /\ within M (payers s).

(** What one exchange can add to the distance between the two runs. *)
Definition step_error (M : Q) : Q := unit_roundoff * (4 * M + 4).

(** The distance the two runs can reach on [n] rows: the rounding of the
    input, and one [step_error] for each of the [n * n] visits. *)
Definition error_budget (M : Q) (n : nat) : Q :=
  unit_roundoff * (M + 1) + inject_Z (Z.of_nat (n * n)) * step_error M.

(** The line of the exact run as the binary64 run prints it. *)
Definition double_line (t : Transfer) : Transfer :=
  mkTransfer (t_from t) (b64 (t_amount t)) (t_to t).

(** A line for the double nearest to a positive whole number of cents. *)
Definition cents_line (t : Transfer) : Prop :=
  exists k : Z, (0 < k)%Z /\ t_amount t = b64 (k # 100).

(** ** Arithmetic of [round] *)

Lemma Qlt_bool_iff x y : Qlt_bool x y = true <-> x < y.
Proof.
  unfold Qlt_bool. rewrite negb_true_iff, <- not_true_iff_false, Qle_bool_iff.
  split; [apply Qnot_le_lt | apply Qlt_not_le].
Qed.

Lemma Qlt_bool_false x y : Qlt_bool x y = false <-> y <= x.
Proof.
  unfold Qlt_bool. rewrite negb_false_iff. apply Qle_bool_iff.
Qed.

Lemma Qeq_bool_false x y : Qeq_bool x y = false <-> ~ x == y.
Proof. rewrite <- not_true_iff_false, Qeq_bool_iff. tauto. Qed.

Section RoundHalfEven.
Variable t : Q.

Let fl_le : inject_Z (Qfloor t) <= t := Qfloor_le t.

Lemma floor_lt_succ : t < inject_Z (Qfloor t) + 1.
Proof.
  pose proof (Qlt_floor t) as H. rewrite inject_Z_plus in H. exact H.
Qed.

Lemma round_half_even_lower : inject_Z (round_half_even t) - (1 # 2) <= t.
Proof.
  pose proof floor_lt_succ as Hs. pose proof fl_le as Hf. unfold round_half_even.
  destruct (Qcompare _ _) eqn:E;
    [apply Qeq_alt in E | apply Qlt_alt in E | apply Qgt_alt in E];
    try destruct (Z.even _); rewrite ?inject_Z_plus;
    change (inject_Z 1) with 1; lra.
Qed.

Lemma round_half_even_upper : t <= inject_Z (round_half_even t) + (1 # 2).
Proof.
  pose proof floor_lt_succ as Hs. pose proof fl_le as Hf. unfold round_half_even.
  destruct (Qcompare _ _) eqn:E;
    [apply Qeq_alt in E | apply Qlt_alt in E | apply Qgt_alt in E];
    try destruct (Z.even _); rewrite ?inject_Z_plus;
    change (inject_Z 1) with 1; lra.
Qed.
End RoundHalfEven.

#[global] Instance round_half_even_comp : Proper (Qeq ==> eq) round_half_even.
Proof.
  intros x y H. unfold round_half_even. cbv zeta.
  assert (Qfloor x = Qfloor y) as Hf by (rewrite H; reflexivity).
  assert (Qcompare (x - inject_Z (Qfloor x)) (1 # 2)
          = Qcompare (y - inject_Z (Qfloor y)) (1 # 2)) as Hc
    by (rewrite Hf, H; reflexivity).
  rewrite Hc, Hf. reflexivity.
Qed.

#[global] Instance round_comp : Proper (Qeq ==> eq ==> eq) round.
Proof.
  intros x y H n ? <-. unfold round. rewrite H. reflexivity.
Qed.

Lemma round_half_even_Z (k : Z) : round_half_even (inject_Z k) = k.
Proof.
  unfold round_half_even. cbv zeta. rewrite Qfloor_Z.
  destruct (Qcompare _ _) eqn:E;
    [apply Qeq_alt in E | apply Qlt_alt in E | apply Qgt_alt in E];
    [lra | reflexivity | lra].
Qed.

(** [round] at [PRECISION], scaled to an integer. *)
Lemma round_scaled x :
  round x PRECISION * 100 == inject_Z (round_half_even (x * 100)).
Proof.
  unfold round. rewrite Qred_correct. cbn [PRECISION pow10].
  change (inject_Z (Z.pos (10 * (10 * 1)))) with 100.
  generalize (round_half_even (x * 100)). intros k.
  unfold Qeq, Qmult, inject_Z. cbn. lia.
Qed.

Lemma round_lower x : round x PRECISION - half_unit <= x.
Proof.
  pose proof (round_scaled x) as E.
  pose proof (round_half_even_lower (x * 100)) as L. unfold half_unit. lra.
Qed.

Lemma round_upper x : x <= round x PRECISION + half_unit.
Proof.
  pose proof (round_scaled x) as E.
  pose proof (round_half_even_upper (x * 100)) as U. unfold half_unit. lra.
Qed.

(** Ties go to the even multiple: half a unit rounds to zero on both sides. *)
Lemma round_half_unit x : x == half_unit \/ x == - half_unit -> round x PRECISION = 0.
Proof.
  intros [H | H]; rewrite H; reflexivity.
Qed.

Lemma round_pos_iff x : 0 < round x PRECISION <-> half_unit < x.
Proof.
  split; intros H.
  - destruct (Qlt_le_dec half_unit x) as [? | Hle]; [assumption | exfalso].
    pose proof (round_scaled x) as E.
    assert (0 < round_half_even (x * 100))%Z as Hk
      by (rewrite Zlt_Qlt; change (inject_Z 0) with 0; lra).
    assert (1 <= round_half_even (x * 100))%Z as Hk1 by lia.
    rewrite Zle_Qle in Hk1. change (inject_Z 1) with 1 in Hk1.
    pose proof (round_lower x) as L. unfold half_unit in *.
    assert (x == 1 # 200) as Hx by lra.
    rewrite (round_half_unit x) in H by (left; exact Hx). lra.
  - pose proof (round_upper x) as U.
    pose proof (round_scaled x) as E.
    destruct (Z_lt_le_dec 0 (round_half_even (x * 100))) as [Hk | Hk].
    + rewrite Zlt_Qlt in Hk. change (inject_Z 0) with 0 in Hk. lra.
    + rewrite Zle_Qle in Hk. change (inject_Z 0) with 0 in Hk.
      unfold half_unit in *. lra.
Qed.

Lemma round_neg_iff x : round x PRECISION < 0 <-> x < - half_unit.
Proof.
  split; intros H.
  - destruct (Qlt_le_dec x (- half_unit)) as [? | Hle]; [assumption | exfalso].
    pose proof (round_scaled x) as E.
    assert (round_half_even (x * 100) < 0)%Z as Hk
      by (rewrite Zlt_Qlt; change (inject_Z 0) with 0; lra).
    assert (round_half_even (x * 100) <= -1)%Z as Hk1 by lia.
    rewrite Zle_Qle in Hk1. change (inject_Z (-1)) with (-1) in Hk1.
    pose proof (round_upper x) as U. unfold half_unit in *.
    assert (x == - (1 # 200)) as Hx by lra.
    rewrite (round_half_unit x) in H by (right; exact Hx). lra.
  - pose proof (round_lower x) as L.
    pose proof (round_scaled x) as E.
    destruct (Z_lt_le_dec (round_half_even (x * 100)) 0) as [Hk | Hk].
    + rewrite Zlt_Qlt in Hk. change (inject_Z 0) with 0 in Hk. lra.
    + rewrite Zle_Qle in Hk. change (inject_Z 0) with 0 in Hk.
      unfold half_unit in *. lra.
Qed.

Lemma round_zero_iff x :
  round x PRECISION == 0 <-> - half_unit <= x <= half_unit.
Proof.
  pose proof (round_pos_iff x) as P. pose proof (round_neg_iff x) as N.
  split.
  - intros H. split.
    + apply Qnot_lt_le. intros C. apply N in C. lra.
    + apply Qnot_lt_le. intros C. apply P in C. lra.
  - intros [H1 H2].
    destruct (Q_dec (round x PRECISION) 0) as [[C | C] | C]; [| | assumption].
    + apply N in C. lra.
    + apply P in C. lra.
Qed.

Lemma round_nonneg x : 0 <= x -> 0 <= round x PRECISION.
Proof.
  intros H. apply Qnot_lt_le. intros C. apply round_neg_iff in C.
  unfold half_unit in C. lra.
Qed.

Lemma round_on_grid x : on_grid (round x PRECISION).
Proof.
  exists (round_half_even (x * 100)). unfold round. rewrite Qred_correct.
  reflexivity.
Qed.

Lemma round_of_grid x : on_grid x -> round x PRECISION == x.
Proof.
  intros [k Hk]. pose proof (round_scaled x) as E.
  assert (x * 100 == inject_Z k) as Hs.
  { rewrite Hk. cbn [PRECISION pow10]. unfold Qeq, Qmult, inject_Z. cbn. lia. }
  rewrite Hs, round_half_even_Z in E. lra.
Qed.

(** ** Arithmetic of one exchange *)

Ltac abs_min_cases d c :=
  let Hd := fresh "Habs" in
  let Hc := fresh "Habs" in
  let Hm := fresh "Hmin" in
  destruct (Qlt_le_dec d 0) as [Hd | Hd];
  [ pose proof (Qabs_neg d (Qlt_le_weak _ _ Hd)) | pose proof (Qabs_pos d Hd) ];
  (destruct (Qlt_le_dec c 0) as [Hc | Hc];
   [ pose proof (Qabs_neg c (Qlt_le_weak _ _ Hc)) | pose proof (Qabs_pos c Hc) ]);
  destruct (Q.min_spec (Qabs d) (Qabs c)) as [[? Hm] | [? Hm]].

Section Exchange.
Variables d c : Q.
Let m := Qmin (Qabs d) (Qabs c).
Let a := round m PRECISION.

Lemma exchange_nonneg : 0 <= a.
Proof.
  apply round_nonneg. subst m. abs_min_cases d c; lra.
Qed.

(** What a non-zero amount says when the payer has not overpaid and the
    recipient is still owed money. *)
Lemma exchange_arith :
  - half_unit <= d -> c < - half_unit -> ~ a == 0 ->
  half_unit < d /\ 0 < a /\ a <= d + half_unit /\ a <= - c + half_unit
  /\ a < 2 * d /\ a < - (2 * c)
  /\ (d - a <= half_unit \/ - half_unit <= c + a).
Proof.
  intros Hd Hc Ha. pose proof exchange_nonneg as H0.
  assert (0 < a) as Hpos by lra.
  pose proof (proj1 (round_pos_iff m) Hpos) as Hm.
  pose proof (round_lower m) as L. pose proof (round_upper m) as U.
  fold a in L, U. subst m. unfold half_unit in *.
  abs_min_cases d c; repeat split; try lra.
Qed.

(** A zero amount with a recipient still owed money: the payer is settled. *)
Lemma exchange_zero :
  c < - half_unit -> a == 0 -> - half_unit <= d <= half_unit.
Proof.
  intros Hc Ha. pose proof (proj1 (round_zero_iff m) Ha) as Hm.
  subst m. unfold half_unit in *. abs_min_cases d c; lra.
Qed.
End Exchange.

(** ** The store under one exchange *)

Lemma owes_money_iff p : owes_money p = true <-> half_unit < cashflow p.
Proof. unfold owes_money. rewrite Qlt_bool_iff. apply round_pos_iff. Qed.

Lemma is_owed_money_iff p : is_owed_money p = true <-> cashflow p < - half_unit.
Proof. unfold is_owed_money. rewrite Qlt_bool_iff. apply round_neg_iff. Qed.

Lemma owes_money_false p : owes_money p = false <-> cashflow p <= half_unit.
Proof.
  rewrite <- not_true_iff_false, owes_money_iff.
  split; [apply Qnot_lt_le | apply Qle_not_lt].
Qed.

Lemma is_owed_money_false p : is_owed_money p = false <-> - half_unit <= cashflow p.
Proof.
  rewrite <- not_true_iff_false, is_owed_money_iff.
  split; [apply Qnot_lt_le | apply Qle_not_lt].
Qed.

Lemma cashflow_pay a p : cashflow (pay a p) == cashflow p - a.
Proof. apply Qred_correct. Qed.

Lemma cashflow_receive a p : cashflow (receive a p) == cashflow p + a.
Proof. apply Qred_correct. Qed.

Lemma apply_transfer_length i j a ps :
  length (apply_transfer i j a ps) = length ps.
Proof. unfold apply_transfer. rewrite !length_alter. reflexivity. Qed.

Lemma apply_transfer_other i j a ps k :
  k <> i -> k <> j -> apply_transfer i j a ps !! k = ps !! k.
Proof.
  intros Hi Hj. unfold apply_transfer.
  rewrite !list_lookup_alter_ne by congruence. reflexivity.
Qed.

Lemma apply_transfer_payer i j a ps :
  i <> j -> apply_transfer i j a ps !! i = pay a <$> ps !! i.
Proof.
  intros Hij. unfold apply_transfer.
  rewrite list_lookup_alter_ne by congruence. apply list_lookup_alter_eq.
Qed.

Lemma apply_transfer_recipient i j a ps :
  i <> j -> apply_transfer i j a ps !! j = receive a <$> ps !! j.
Proof.
  intros Hij. unfold apply_transfer.
  rewrite list_lookup_alter_eq, list_lookup_alter_ne by congruence. reflexivity.
Qed.

Lemma alter_frame {B} (g : Payer -> B) (f : Payer -> Payer) i (ps : list Payer) :
  (forall p, g (f p) = g p) -> map g (alter f i ps) = map g ps.
Proof.
  intros Hf. revert i. induction ps as [| p ps IH]; intros [| i]; cbn;
    rewrite ?Hf, ?IH; reflexivity.
Qed.

Lemma apply_transfer_names i j a ps :
  map name (apply_transfer i j a ps) = map name ps.
Proof. unfold apply_transfer. rewrite !alter_frame; reflexivity. Qed.

Lemma apply_transfer_spent i j a ps :
  map spent (apply_transfer i j a ps) = map spent ps.
Proof. unfold apply_transfer. rewrite !alter_frame; reflexivity. Qed.

Lemma name_at_map ps ps' k : map name ps = map name ps' -> name_at ps k = name_at ps' k.
Proof.
  intros H. unfold name_at.
  assert (name <$> ps !! k = name <$> ps' !! k) as E
    by (rewrite <- !list_lookup_fmap; unfold fmap, list_fmap; fold (map name ps);
        fold (map name ps'); rewrite H; reflexivity).
  destruct (ps !! k), (ps' !! k); cbn in *; congruence.
Qed.

(** Everything an enabled exchange says about the two records and the store. *)
Lemma enabled_inv ps e :
  enabled ps e ->
  exists payer recipient,
    ps !! ev_payer e = Some payer /\ ps !! ev_recipient e = Some recipient
    /\ ev_payer e <> ev_recipient e
    /\ ev_amount e = amount_exchanged payer recipient
    /\ half_unit < cashflow payer /\ cashflow recipient < - half_unit
    /\ 0 < ev_amount e
    /\ ev_amount e <= cashflow payer + half_unit
    /\ ev_amount e <= - cashflow recipient + half_unit
    /\ ev_amount e < 2 * cashflow payer
    /\ ev_amount e < - (2 * cashflow recipient)
    /\ (cashflow payer - ev_amount e <= half_unit
        \/ - half_unit <= cashflow recipient + ev_amount e)
    /\ apply_event e ps !! ev_payer e = Some (pay (ev_amount e) payer)
    /\ apply_event e ps !! ev_recipient e = Some (receive (ev_amount e) recipient).
Proof.
  intros (payer & recipient & Hi & Hj & Ho & Hr & Ha & Hnz).
  exists payer, recipient.
  apply owes_money_iff in Ho. apply is_owed_money_iff in Hr.
  assert (ev_payer e <> ev_recipient e) as Hij.
  { intros E. rewrite E in Hi. rewrite Hi in Hj. injection Hj as <-.
    unfold half_unit in *. lra. }
  assert (- half_unit <= cashflow payer) as Hd by (unfold half_unit in *; lra).
  rewrite Ha in Hnz.
  pose proof (exchange_arith (cashflow payer) (cashflow recipient) Hd Hr Hnz) as A.
  cbv zeta in A. fold (amount_exchanged payer recipient) in A. rewrite <- Ha in A.
  unfold apply_event.
  rewrite apply_transfer_payer, apply_transfer_recipient, Hi, Hj by assumption.
  cbn. tauto.
Qed.

(** An exchange never turns a record that is not owed money into one that
    is, nor a record that does not owe money into one that does. *)
Lemma enabled_mono ps e :
  enabled ps e ->
  forall k p, ps !! k = Some p ->
  exists p', apply_event e ps !! k = Some p'
    /\ (- half_unit <= cashflow p -> - half_unit <= cashflow p')
    /\ (cashflow p <= half_unit -> cashflow p' <= half_unit).
Proof.
  intros En k p Hk.
  destruct (enabled_inv _ _ En) as (payer & recipient & Hi & Hj & Hij & _ & Hd & Hc
    & Ha & Ha1 & Ha2 & _ & _ & _ & Hi' & Hj').
  destruct (decide (k = ev_payer e)) as [-> | Hki].
  { rewrite Hi in Hk. injection Hk as <-. eexists. split; [exact Hi' |].
    rewrite cashflow_pay. split; intros; lra. }
  destruct (decide (k = ev_recipient e)) as [-> | Hkj].
  { rewrite Hj in Hk. injection Hk as <-. eexists. split; [exact Hj' |].
    rewrite cashflow_receive. split; intros; lra. }
  exists p. unfold apply_event. rewrite apply_transfer_other by assumption.
  tauto.
Qed.

(** ** Sequences of exchanges *)

Lemma run_app ps evs1 ps1 evs2 ps2 :
  run ps evs1 ps1 -> run ps1 evs2 ps2 -> run ps (evs1 ++ evs2) ps2.
Proof.
  induction 1 as [| ps e evs ps' En _ IH]; intros R2; cbn; [assumption |].
  apply run_cons; [assumption | apply IH, R2].
Qed.

Lemma run_names ps evs ps' : run ps evs ps' -> map name ps' = map name ps.
Proof.
  induction 1 as [| ps e evs ps' _ _ IH]; [reflexivity |].
  rewrite IH. apply apply_transfer_names.
Qed.

Lemma run_spent ps evs ps' : run ps evs ps' -> map spent ps' = map spent ps.
Proof.
  induction 1 as [| ps e evs ps' _ _ IH]; [reflexivity |].
  rewrite IH. apply apply_transfer_spent.
Qed.

Lemma run_length ps evs ps' : run ps evs ps' -> length ps' = length ps.
Proof.
  intros R. apply run_names in R.
  rewrite <- (length_map name ps'), R. apply length_map.
Qed.

Lemma run_mono ps evs ps' :
  run ps evs ps' ->
  forall k p, ps !! k = Some p ->
  exists p', ps' !! k = Some p'
    /\ (- half_unit <= cashflow p -> - half_unit <= cashflow p')
    /\ (cashflow p <= half_unit -> cashflow p' <= half_unit).
Proof.
  induction 1 as [ps | ps e evs ps' En _ IH]; intros k p Hk.
  - exists p. tauto.
  - destruct (enabled_mono _ _ En _ _ Hk) as (p1 & Hk1 & L1 & U1).
    destruct (IH _ _ Hk1) as (p' & Hk' & L & U).
    exists p'. tauto.
Qed.

Lemma run_not_owed ps evs ps' k p p' :
  run ps evs ps' -> ps !! k = Some p -> ps' !! k = Some p' ->
  is_owed_money p = false -> is_owed_money p' = false.
Proof.
  intros R Hk Hk'. rewrite !is_owed_money_false.
  destruct (run_mono _ _ _ R _ _ Hk) as (q & Hq & L & _).
  rewrite Hk' in Hq. injection Hq as <-. exact L.
Qed.

Lemma run_not_owing ps evs ps' k p p' :
  run ps evs ps' -> ps !! k = Some p -> ps' !! k = Some p' ->
  owes_money p = false -> owes_money p' = false.
Proof.
  intros R Hk Hk'. rewrite !owes_money_false.
  destruct (run_mono _ _ _ R _ _ Hk) as (q & Hq & _ & U).
  rewrite Hk' in Hq. injection Hq as <-. exact U.
Qed.

Lemma lines_names ps ps' evs :
  map name ps = map name ps' -> map (line_of ps) evs = map (line_of ps') evs.
Proof.
  intros H. apply map_ext. intros e. unfold line_of.
  rewrite !(name_at_map ps ps') by assumption. reflexivity.
Qed.

(** ** The loops as sequences of exchanges *)

(** One visit of the inner loop either leaves the state alone, and then the
    payer is settled if the visited record is owed money, or makes one
    enabled exchange and prints its line. *)
Lemma recipient_step_spec i s j payer :
  payers s !! i = Some payer -> - half_unit <= cashflow payer ->
  (recipient_step i s j = s
   /\ (forall r, payers s !! j = Some r -> is_owed_money r = true ->
       cashflow payer <= half_unit))
  \/ (exists a,
       enabled (payers s) (mkEvent i j a)
       /\ recipient_step i s j
          = mkState (printed s ++ [line_of (payers s) (mkEvent i j a)])
                    (apply_event (mkEvent i j a) (payers s))).
Proof.
  intros Hi Hd. unfold recipient_step.
  destruct (payers s !! j) as [r |] eqn:Hj; [| left; split; [reflexivity | discriminate]].
  destruct (is_owed_money r) eqn:Ho;
    [| left; split; [reflexivity | intros ? [= <-]; congruence]].
  pose proof (proj1 (is_owed_money_iff r) Ho) as Hc.
  unfold pair_step. rewrite Hi, Hj. cbv zeta.
  destruct (Qeq_bool (amount_exchanged payer r) 0) eqn:Ea.
  - left. split; [reflexivity |]. intros ? _ _.
    apply Qeq_bool_iff in Ea.
    apply (exchange_zero (cashflow payer) (cashflow r) Hc Ea).
  - right. exists (amount_exchanged payer r).
    apply Qeq_bool_false in Ea.
    pose proof (exchange_arith (cashflow payer) (cashflow r) Hd Hc Ea) as [Hp _].
    split.
    + exists payer, r. cbn. repeat split; try assumption.
      apply owes_money_iff, Hp.
    + unfold line_of, name_at, apply_event. cbn. rewrite Hi, Hj. reflexivity.
Qed.

(** The inner loop for the payer at position [i]: a run of exchanges, all
    paid by [i], to recipients met in the order of [js]; at the end the payer
    is settled or no record of [js] is owed money any more. *)
Lemma inner_loop_spec i js : forall s payer,
  payers s !! i = Some payer -> - half_unit <= cashflow payer ->
  exists evs payer',
    run (payers s) evs (payers (inner_loop i js s))
    /\ printed (inner_loop i js s) = printed s ++ map (line_of (payers s)) evs
    /\ Forall (fun e => ev_payer e = i) evs
    /\ sublist (map ev_recipient evs) js
    /\ payers (inner_loop i js s) !! i = Some payer'
    /\ (cashflow payer' <= half_unit
        \/ forall j r, j ∈ js -> payers (inner_loop i js s) !! j = Some r ->
           is_owed_money r = false).
Proof.
  induction js as [| j js IH]; intros s payer Hi Hd.
  { exists [], payer. cbn. rewrite app_nil_r.
    split_and!; [constructor | reflexivity | constructor | constructor | assumption |].
    right. intros j r Hj. inversion Hj. }
  change (inner_loop i (j :: js) s) with (inner_loop i js (recipient_step i s j)).
  destruct (recipient_step_spec i s j payer Hi Hd) as [[-> Hskip] | (a & En & ->)].
  - destruct (IH s payer Hi Hd) as (evs & payer' & R & Hp & Hf & Hs & Hi' & Hend).
    exists evs, payer'. split_and!; try assumption.
    { apply sublist_cons, Hs. }
    destruct Hend as [? | Hend]; [left; assumption |].
    destruct (payers s !! j) as [r |] eqn:Hj.
    + destruct (is_owed_money r) eqn:Ho.
      * left. apply owes_money_false.
        refine (run_not_owing _ _ _ _ _ _ R Hi Hi' _).
        apply owes_money_false. eapply Hskip; [reflexivity | assumption].
      * right. intros j' r' Hin Hj'. apply elem_of_cons in Hin as [-> | Hin];
          [| eapply Hend; eassumption].
        exact (run_not_owed _ _ _ _ _ _ R Hj Hj' Ho).
    + right. intros j' r' Hin Hj'. apply elem_of_cons in Hin as [-> | Hin];
        [| eapply Hend; eassumption].
      apply lookup_lt_Some in Hj'. rewrite (run_length _ _ _ R) in Hj'.
      apply lookup_ge_None in Hj. lia.
  - set (e := mkEvent i j a) in *.
    set (s1 := mkState _ _).
    destruct (enabled_inv _ _ En) as (p0 & r0 & Hi0 & Hj0 & Hij & _ & Hd0 & Hc0
      & Ha & Ha1 & Ha2 & _ & _ & Hset & Hi1 & Hj1).
    cbn in Hi0, Hj0, Hij, Ha, Ha1, Ha2, Hset, Hi1, Hj1.
    assert (- half_unit <= cashflow (pay a p0)) as Hd1
      by (rewrite cashflow_pay; lra).
    destruct (IH s1 (pay a p0) Hi1 Hd1) as (evs & payer' & R & Hp & Hf & Hs & Hi' & Hend).
    exists (e :: evs), payer'. cbn [map]. split_and!; try assumption.
    + apply run_cons; assumption.
    + rewrite Hp. cbn [printed s1]. rewrite <- app_assoc. cbn. do 2 f_equal.
      apply lines_names. apply apply_transfer_names.
    + constructor; [reflexivity | assumption].
    + apply sublist_skip, Hs.
    + destruct Hend as [? | Hend]; [left; assumption |].
      destruct Hset as [Hset | Hset].
      * left. apply owes_money_false.
        refine (run_not_owing _ _ _ _ _ _ R Hi1 Hi' _).
        apply owes_money_false. rewrite cashflow_pay. exact Hset.
      * right. intros j' r' Hin Hj'. apply elem_of_cons in Hin as [-> | Hin];
          [| eapply Hend; eassumption].
        refine (run_not_owed _ _ _ _ _ _ R Hj1 Hj' _).
        apply is_owed_money_false. rewrite cashflow_receive. exact Hset.
Qed.

Lemma run_lookup_back ps evs ps' k p' :
  run ps evs ps' -> ps' !! k = Some p' -> exists p, ps !! k = Some p.
Proof.
  intros R Hk. apply lookup_lt_Some in Hk. rewrite (run_length _ _ _ R) in Hk.
  apply lookup_lt_is_Some_2 in Hk. destruct Hk as [p Hp]. exists p. exact Hp.
Qed.

Lemma run_settled_at ps evs ps' k :
  run ps evs ps' -> settled_at ps k -> settled_at ps' k.
Proof.
  intros R H p' Hk'. destruct (run_lookup_back _ _ _ _ _ R Hk') as [p Hk].
  exact (run_not_owing _ _ _ _ _ _ R Hk Hk' (H _ Hk)).
Qed.

Lemma run_no_creditor ps evs ps' :
  run ps evs ps' -> no_creditor ps -> no_creditor ps'.
Proof.
  intros R H j r' Hj'. destruct (run_lookup_back _ _ _ _ _ R Hj') as [r Hj].
  exact (run_not_owed _ _ _ _ _ _ R Hj Hj' (H _ _ Hj)).
Qed.

Lemma StronglySorted_sublist {A} (R : A -> A -> Prop) (l1 l2 : list A) :
  sublist l1 l2 -> StronglySorted R l2 -> StronglySorted R l1.
Proof.
  induction 1 as [| x l1 l2 Hs IH | x l1 l2 Hs IH]; intros S2.
  - constructor.
  - apply StronglySorted_cons in S2 as [F S2]. apply StronglySorted_cons.
    split; [| apply IH, S2].
    rewrite Forall_forall in *. intros y Hy. apply F.
    eapply elem_of_sublist; eassumption.
  - apply StronglySorted_cons in S2 as [_ S2]. apply IH, S2.
Qed.

Lemma reversed_seq_sorted a n :
  StronglySorted (fun x y => (y < x)%nat) (rev (seq a n)).
Proof.
  revert a. induction n as [| n IH]; intros a; [constructor |].
  rewrite seq_S, rev_app_distr. cbn. apply StronglySorted_cons. split; [| apply IH].
  rewrite Forall_forall. intros y Hy. apply list_elem_of_In, in_rev, in_seq in Hy. lia.
Qed.

Lemma chunk_sorted i evs :
  Forall (fun e => ev_payer e = i) evs ->
  StronglySorted (fun x y => (y < x)%nat) (map ev_recipient evs) ->
  StronglySorted before evs.
Proof.
  induction 1 as [| e evs He Hf IH]; cbn; intros S; [constructor |].
  apply StronglySorted_cons in S as [F S]. apply StronglySorted_cons.
  split; [| apply IH, S].
  rewrite Forall_forall in F. rewrite Forall_forall in Hf. rewrite Forall_forall.
  intros e' He'. right. split.
  - rewrite He. symmetry. apply Hf, He'.
  - apply F. apply list_elem_of_In, in_map, list_elem_of_In, He'.
Qed.

(** One pull of the outer loop. *)
Lemma payer_step_spec s i :
  exists evs,
    run (payers s) evs (payers (payer_step s i))
    /\ printed (payer_step s i) = printed s ++ map (line_of (payers s)) evs
    /\ Forall (fun e => ev_payer e = i) evs
    /\ StronglySorted before evs
    /\ (settled_at (payers (payer_step s i)) i
        \/ no_creditor (payers (payer_step s i))).
Proof.
  assert (exists evs, run (payers s) evs (payers s)
    /\ printed s = printed s ++ map (line_of (payers s)) evs
    /\ Forall (fun e => ev_payer e = i) evs /\ StronglySorted before evs) as Hnil.
  { exists []. cbn. rewrite app_nil_r. split_and!; constructor. }
  unfold payer_step. destruct (payers s !! i) as [payer |] eqn:Hi.
  2: { destruct Hnil as (evs & ? & ? & ? & ?). exists evs. split_and!; try assumption.
       left. intros p Hp. congruence. }
  destruct (owes_money payer) eqn:Ho.
  2: { destruct Hnil as (evs & ? & ? & ? & ?). exists evs. split_and!; try assumption.
       left. intros p Hp. congruence. }
  apply owes_money_iff in Ho.
  assert (- half_unit <= cashflow payer) as Hd by (unfold half_unit in *; lra).
  destruct (inner_loop_spec i (reversed_positions s) s payer Hi Hd)
    as (evs & payer' & R & Hp & Hf & Hs & Hi' & Hend).
  exists evs. split_and!; try assumption.
  - apply (chunk_sorted i); [assumption |].
    eapply StronglySorted_sublist; [exact Hs | apply reversed_seq_sorted].
  - destruct Hend as [Hend | Hend].
    + left. intros p Hp'. rewrite Hi' in Hp'. injection Hp' as <-.
      apply owes_money_false, Hend.
    + right. intros j r Hj. apply (Hend j r); [| assumption].
      apply lookup_lt_Some in Hj. rewrite (run_length _ _ _ R) in Hj.
      unfold reversed_positions. rewrite list_elem_of_In, <- in_rev, in_seq. lia.
Qed.

(** The outer loop: one run of exchanges in the order of the visits; every
    visited payer ends settled unless nobody is owed money any more. *)
Lemma outer_loop_spec positions : forall s,
  exists evs,
    run (payers s) evs (payers (outer_loop positions s))
    /\ printed (outer_loop positions s) = printed s ++ map (line_of (payers s)) evs
    /\ Forall (fun e => ev_payer e ∈ positions) evs
    /\ (StronglySorted lt positions -> StronglySorted before evs)
    /\ (forall i, i ∈ positions ->
          settled_at (payers (outer_loop positions s)) i
          \/ no_creditor (payers (outer_loop positions s))).
Proof.
  induction positions as [| i positions IH]; intros s.
  { exists []. cbn. rewrite app_nil_r.
    split_and!; [constructor | reflexivity | constructor | intros _; constructor |].
    intros k Hk. inversion Hk. }
  change (outer_loop (i :: positions) s) with (outer_loop positions (payer_step s i)).
  destruct (payer_step_spec s i) as (evs1 & R1 & P1 & F1 & S1 & E1).
  destruct (IH (payer_step s i)) as (evs2 & R2 & P2 & F2 & S2 & E2).
  exists (evs1 ++ evs2). split_and!.
  - eapply run_app; eassumption.
  - rewrite P2, P1, map_app, <- app_assoc. do 2 f_equal.
    apply lines_names. apply (run_names _ _ _ R1).
  - apply Forall_app. split.
    + eapply Forall_impl; [exact F1 |]. cbn. intros e ->. apply list_elem_of_here.
    + eapply Forall_impl; [exact F2 |]. cbn. intros e He. apply list_elem_of_further, He.
  - intros S. apply StronglySorted_cons in S as [Hlt S].
    apply StronglySorted_app. split_and!; [| assumption | apply S2, S].
    intros e1 e2 H1 H2. left.
    rewrite Forall_forall in F1. rewrite Forall_forall in F2.
    rewrite Forall_forall in Hlt.
    rewrite (F1 _ H1). apply Hlt, F2, H2.
  - intros i' Hi'. apply elem_of_cons in Hi' as [-> | Hi']; [| apply E2, Hi'].
    destruct E1 as [E1 | E1].
    + left. eapply run_settled_at; eassumption.
    + right. eapply run_no_creditor; eassumption.
Qed.

(** ** The sort *)

Lemma sort_key_lt x y :
  Qlt_bool (sort_key y) (sort_key x) = true <-> cashflow x < cashflow y.
Proof. rewrite Qlt_bool_iff. unfold sort_key. split; intros; lra. Qed.

Lemma insert_sorted_perm x l : insert_sorted x l ≡ₚ x :: l.
Proof.
  induction l as [| y l IH]; cbn; [reflexivity |].
  destruct (Qlt_bool _ _); [| reflexivity].
  rewrite IH. apply perm_swap.
Qed.

Lemma sort_payers_perm l : sort_payers l ≡ₚ l.
Proof.
  induction l as [| x l IH]; cbn; [reflexivity |].
  rewrite insert_sorted_perm, IH. reflexivity.
Qed.

Lemma insert_sorted_descending x l :
  StronglySorted descending l -> StronglySorted descending (insert_sorted x l).
Proof.
  induction l as [| y l IH]; cbn; intros S.
  { repeat constructor. }
  apply StronglySorted_cons in S as [F S].
  destruct (Qlt_bool _ _) eqn:E.
  - apply sort_key_lt in E. apply StronglySorted_cons. split; [| apply IH, S].
    rewrite insert_sorted_perm. constructor; [| assumption].
    unfold descending. lra.
  - apply Qlt_bool_false in E. unfold sort_key in E.
    apply StronglySorted_cons. split; [| apply StronglySorted_cons; tauto].
    constructor; [unfold descending; lra |].
    eapply Forall_impl; [exact F |]. unfold descending. cbn. intros z Hz. lra.
Qed.

Lemma sort_payers_descending l : StronglySorted descending (sort_payers l).
Proof.
  induction l as [| x l IH]; cbn; [constructor |].
  apply insert_sorted_descending, IH.
Qed.

Lemma with_balance_insert c x l :
  with_balance c (insert_sorted x l) = with_balance c (x :: l).
Proof.
  induction l as [| y l IH]; [reflexivity |].
  cbn [insert_sorted]. destruct (Qlt_bool _ _) eqn:E; [| reflexivity].
  apply sort_key_lt in E. unfold with_balance in *. cbn [List.filter] in *.
  rewrite IH.
  destruct (Qeq_bool (cashflow x) c) eqn:Ex; [| reflexivity].
  destruct (Qeq_bool (cashflow y) c) eqn:Ey; [| reflexivity].
  apply Qeq_bool_iff in Ex, Ey. lra.
Qed.

(** Stability: records with equal balances keep their input order. *)
Lemma sort_payers_stable c l : with_balance c (sort_payers l) = with_balance c l.
Proof.
  induction l as [| x l IH]; [reflexivity |].
  cbn [sort_payers]. rewrite with_balance_insert.
  unfold with_balance in *. cbn [List.filter]. rewrite IH. reflexivity.
Qed.

Lemma with_balance_cons c x l :
  with_balance c (x :: l)
  = if Qeq_bool (cashflow x) c then x :: with_balance c l else with_balance c l.
Proof. reflexivity. Qed.

Lemma with_balance_self x l : In x l -> In x (with_balance (cashflow x) l).
Proof.
  intros H. apply filter_In. split; [exact H |]. apply Qeq_bool_iff. reflexivity.
Qed.

Lemma descending_head x l z :
  StronglySorted descending (x :: l) -> In z (x :: l) -> cashflow z <= cashflow x.
Proof.
  intros S [<- | Hz]; [apply Qle_refl |].
  apply StronglySorted_cons in S as [F _]. rewrite Forall_forall in F.
  apply (F z), list_elem_of_In, Hz.
Qed.

(** Two lists sorted by descending balance that list the records of each
    balance in the same order are the same list. *)
Lemma descending_stable_unique l1 : forall l2,
  StronglySorted descending l1 -> StronglySorted descending l2 ->
  (forall c, with_balance c l1 = with_balance c l2) -> l1 = l2.
Proof.
  induction l1 as [| x l1 IH]; intros [| y l2] S1 S2 H; [reflexivity | | |].
  - specialize (H (cashflow y)). rewrite with_balance_cons in H.
    rewrite (proj2 (Qeq_bool_iff _ _) (Qeq_refl _)) in H. discriminate.
  - specialize (H (cashflow x)). rewrite with_balance_cons in H.
    rewrite (proj2 (Qeq_bool_iff _ _) (Qeq_refl _)) in H. discriminate.
  - assert (cashflow x <= cashflow y) as Hxy.
    { apply (descending_head y l2 x S2).
      pose proof (with_balance_self x (x :: l1) (or_introl eq_refl)) as Hx.
      rewrite H in Hx. apply filter_In in Hx. tauto. }
    assert (cashflow y <= cashflow x) as Hyx.
    { apply (descending_head x l1 y S1).
      pose proof (with_balance_self y (y :: l2) (or_introl eq_refl)) as Hy.
      rewrite <- H in Hy. apply filter_In in Hy. tauto. }
    assert (x = y) as <-.
    { pose proof (H (cashflow x)) as Hc. rewrite !with_balance_cons in Hc.
      rewrite (proj2 (Qeq_bool_iff _ _) (Qeq_refl _)) in Hc.
      rewrite (proj2 (Qeq_bool_iff (cashflow y) (cashflow x))) in Hc by lra.
      congruence. }
    f_equal. apply StronglySorted_cons in S1 as [_ S1].
    apply StronglySorted_cons in S2 as [_ S2]. apply IH; [assumption .. |].
    intros c. specialize (H c). rewrite !with_balance_cons in H.
    destruct (Qeq_bool (cashflow x) c); congruence.
Qed.

(** X16.  The sort has one possible result: any list that lists the
    payers by descending balance and keeps the input order among equal
    balances is the list [sort_payers] returns. *)
Lemma stable_sort_unique l l' :
  StronglySorted descending l' ->
  (forall c, with_balance c l' = with_balance c l) ->
  l' = sort_payers l.
Proof.
  intros S H. apply descending_stable_unique;
    [assumption | apply sort_payers_descending |].
  intros c. rewrite sort_payers_stable. apply H.
Qed.

Lemma total_perm l l' : l ≡ₚ l' -> total l == total l'.
Proof.
  unfold total.
  induction 1 as [| x l l' _ IH | x y l | l l' l'' _ IH1 _ IH2]; cbn.
  - reflexivity.
  - rewrite IH. reflexivity.
  - ring.
  - rewrite IH1. exact IH2.
Qed.

(** ** Sums of balances *)

Lemma total_cons p ps : total (p :: ps) == cashflow p + total ps.
Proof. reflexivity. Qed.

Lemma total_alter f i ps p :
  ps !! i = Some p ->
  total (alter f i ps) == total ps + (cashflow (f p) - cashflow p).
Proof.
  revert i. induction ps as [| q ps IH]; intros [| i] Hi; try discriminate.
  - injection Hi as ->. cbn [alter list_alter]. rewrite !total_cons. ring.
  - cbn [alter list_alter]. rewrite !total_cons.
    rewrite (IH i Hi). ring.
Qed.

(** One exchange moves money inside the list. *)
Lemma total_apply_transfer i j a ps p r :
  ps !! i = Some p -> ps !! j = Some r ->
  total (apply_transfer i j a ps) == total ps.
Proof.
  intros Hi Hj. unfold apply_transfer.
  destruct (decide (i = j)) as [<- | Hij].
  - assert (alter (pay a) i ps !! i = Some (pay a p)) as Hi'
      by (rewrite list_lookup_alter_eq, Hi; reflexivity).
    rewrite (total_alter _ _ _ _ Hi'), (total_alter _ _ _ _ Hi).
    rewrite cashflow_receive, cashflow_pay. ring.
  - assert (alter (pay a) i ps !! j = Some r) as Hj'
      by (rewrite list_lookup_alter_ne by assumption; exact Hj).
    rewrite (total_alter _ _ _ _ Hj'), (total_alter _ _ _ _ Hi).
    rewrite cashflow_receive, cashflow_pay. ring.
Qed.

Lemma run_total ps evs ps' : run ps evs ps' -> total ps' == total ps.
Proof.
  induction 1 as [| ps e evs ps' En _ IH]; [reflexivity |].
  rewrite IH. destruct En as (p & r & Hi & Hj & _).
  apply (total_apply_transfer _ _ _ _ p r); assumption.
Qed.





(** ** Balances on the grid *)

Lemma on_grid_plus x y : on_grid x -> on_grid y -> on_grid (x + y).
Proof.
  intros [k Hk] [l Hl]. exists (k + l)%Z. rewrite Hk, Hl.
  unfold Qeq, Qplus. cbn. lia.
Qed.

Lemma on_grid_abs x : on_grid x -> on_grid (Qabs x).
Proof.
  intros [k Hk]. destruct (Qlt_le_dec x 0) as [H | H].
  - exists (- k)%Z. rewrite (Qabs_neg x) by lra. rewrite Hk.
    unfold Qeq, Qopp. cbn. lia.
  - exists k. rewrite (Qabs_pos x) by lra. exact Hk.
Qed.

Lemma on_grid_opp x : on_grid x -> on_grid (- x).
Proof.
  intros [k Hk]. exists (- k)%Z. rewrite Hk. unfold Qeq, Qopp. cbn. lia.
Qed.

#[global] Instance on_grid_comp : Proper (Qeq ==> iff) on_grid.
Proof.
  intros x y H. unfold on_grid. split; intros [k Hk]; exists k.
  - rewrite <- H. exact Hk.
  - rewrite H. exact Hk.
Qed.




Lemma enabled_on_grid ps e :
  enabled ps e -> all_on_grid ps -> all_on_grid (apply_event e ps).
Proof.
  intros (payer & recipient & _ & _ & _ & _ & Ha & _) G.
  assert (on_grid (ev_amount e)) as Ga by (rewrite Ha; apply round_on_grid).
  unfold apply_event, apply_transfer, all_on_grid.
  apply Forall_alter.
  - apply Forall_alter; [exact G |]. intros p _ Hp. cbn beta in *.
    rewrite cashflow_pay. apply on_grid_plus; [assumption | apply on_grid_opp, Ga].
  - intros p _ Hp. cbn beta in *.
    rewrite cashflow_receive. apply on_grid_plus; assumption.
Qed.


(** ** The ledger of a sequence of exchanges *)










(** ** The whole run *)

Lemma seq_sorted a n : StronglySorted lt (seq a n).
Proof.
  revert a. induction n as [| n IH]; intros a; cbn; [constructor |].
  apply StronglySorted_cons. split; [| apply IH].
  rewrite Forall_forall. intros y Hy. apply list_elem_of_In, in_seq in Hy. lia.
Qed.

Lemma no_creditor_Forall ps :
  no_creditor ps <-> Forall (fun r => is_owed_money r = false) ps.
Proof. unfold no_creditor. rewrite Forall_lookup. reflexivity. Qed.

(** [resolve_expenses] makes one run of enabled exchanges from the sorted
    list and prints their lines, in the order of the visits; at the end no
    record owes money or no record is owed money. *)
Lemma resolve_expenses_run expenses :
  exists evs,
    run (sorted_payers expenses) evs (payers (resolve_expenses expenses))
    /\ printed (resolve_expenses expenses) = map (line_of (sorted_payers expenses)) evs
    /\ StronglySorted before evs
    /\ ((forall i, settled_at (payers (resolve_expenses expenses)) i)
        \/ no_creditor (payers (resolve_expenses expenses))).
Proof.
  unfold resolve_expenses. fold (input_payers expenses). fold (sorted_payers expenses).
  cbv zeta. set (ps := sorted_payers expenses).
  destruct (outer_loop_spec (seq 0 (length ps)) (mkState [] ps))
    as (evs & R & P & _ & S & E).
  cbn [payers printed] in R, P. exists evs. split_and!; try assumption.
  - apply S, seq_sorted.
  - set (final := payers _) in *.
    destruct (decide (Forall (fun r => is_owed_money r = false) final)) as [F | F].
    + right. apply no_creditor_Forall, F.
    + left. intros i p Hi.
      assert (i ∈ seq 0 (length ps)) as Hin.
      { apply lookup_lt_Some in Hi. rewrite (run_length _ _ _ R) in Hi.
        rewrite list_elem_of_In, in_seq. lia. }
      destruct (E i Hin) as [Hs | Hn]; [exact (Hs p Hi) |].
      exfalso. apply F, no_creditor_Forall, Hn.
Qed.

Lemma exchanges_impl (P P' : list Payer -> Event -> Prop) ps evs ps' :
  (forall qs e, P qs e -> P' qs e) ->
  exchanges P ps evs ps' -> exchanges P' ps evs ps'.
Proof.
  intros H. induction 1 as [| ps e evs ps' He _ IH]; constructor; auto.
Qed.

Lemma enabled_toward_zero ps e : enabled ps e -> toward_zero ps e.
Proof.
  intros En.
  destruct (enabled_inv _ _ En) as (payer & recipient & Hi & Hj & Hij & _ & Hd & Hc
    & Ha & _ & _ & Ha1 & Ha2 & _ & Hi' & Hj').
  split_and!.
  - intros k p p' Hk Hk'.
    destruct (decide (k = ev_payer e)) as [-> | Hki].
    { rewrite Hi in Hk. rewrite Hi' in Hk'. injection Hk as <-. injection Hk' as <-.
      rewrite cashflow_pay, (Qabs_pos (cashflow payer)) by (unfold half_unit in *; lra).
      apply Qabs_Qle_condition. unfold half_unit in *. split; lra. }
    destruct (decide (k = ev_recipient e)) as [-> | Hkj].
    { rewrite Hj in Hk. rewrite Hj' in Hk'. injection Hk as <-. injection Hk' as <-.
      rewrite cashflow_receive, (Qabs_neg (cashflow recipient))
        by (unfold half_unit in *; lra).
      apply Qabs_Qle_condition. unfold half_unit in *. split; lra. }
    unfold apply_event in Hk'. rewrite apply_transfer_other in Hk' by assumption.
    rewrite Hk in Hk'. injection Hk' as <-. apply Qle_refl.
  - exists payer, (pay (ev_amount e) payer). split_and!; try assumption.
    + apply owes_money_iff, Hd.
    + rewrite cashflow_pay. lra.
  - exists recipient, (receive (ev_amount e) recipient). split_and!; try assumption.
    + apply is_owed_money_iff, Hc.
    + rewrite cashflow_receive. lra.
Qed.

Lemma enabled_total ps e : enabled ps e -> total (apply_event e ps) == total ps.
Proof.
  intros (p & r & Hi & Hj & _). apply (total_apply_transfer _ _ _ _ p r); assumption.
Qed.

Lemma resolve_expenses_frame expenses :
  map name (payers (resolve_expenses expenses)) = map name (sorted_payers expenses)
  /\ map spent (payers (resolve_expenses expenses)) = map spent (sorted_payers expenses).
Proof.
  destruct (resolve_expenses_run expenses) as (evs & R & _).
  split; [apply (run_names _ _ _ R) | apply (run_spent _ _ _ R)].
Qed.

Lemma run_amounts ps evs ps' :
  run ps evs ps' -> Forall (fun e => ~ ev_amount e == 0) evs.
Proof.
  induction 1 as [| ps e evs ps' En _ IH]; constructor; [| exact IH].
  destruct En as (_ & _ & _ & _ & _ & _ & _ & Hnz). exact Hnz.
Qed.


(** ** Counting the records that still take part *)



Lemma count_unsettled_perm l l' : l ≡ₚ l' -> count_unsettled l = count_unsettled l'.
Proof.
  unfold count_unsettled.
  induction 1 as [| x l l' _ IH | x y l | l l' l'' _ IH1 _ IH2]; cbn.
  - reflexivity.
  - destruct (unsettled x); cbn; rewrite IH; reflexivity.
  - destruct (unsettled x), (unsettled y); reflexivity.
  - rewrite IH1. exact IH2.
Qed.




(** ** Runs with nothing to do *)

Lemma recipient_step_idle i s j :
  no_creditor (payers s) -> recipient_step i s j = s.
Proof.
  intros H. unfold recipient_step.
  destruct (payers s !! j) as [r |] eqn:Hj; [| reflexivity].
  rewrite (H j r Hj). reflexivity.
Qed.

Lemma inner_loop_idle i js s :
  no_creditor (payers s) -> inner_loop i js s = s.
Proof.
  intros H. induction js as [| j js IH]; [reflexivity |].
  cbn [inner_loop fold_left]. rewrite recipient_step_idle by assumption. exact IH.
Qed.

Lemma outer_loop_idle positions s :
  (forall i, settled_at (payers s) i) \/ no_creditor (payers s) ->
  outer_loop positions s = s.
Proof.
  intros H. induction positions as [| i positions IH]; [reflexivity |].
  cbn [outer_loop fold_left].
  assert (payer_step s i = s) as ->; [| exact IH].
  unfold payer_step. destruct (payers s !! i) as [payer |] eqn:Hi; [| reflexivity].
  destruct H as [H | H].
  - rewrite (H i payer Hi). reflexivity.
  - destruct (owes_money payer); [| reflexivity]. apply inner_loop_idle, H.
Qed.

Lemma sort_then_idle ps :
  (forall i, settled_at ps i) \/ no_creditor ps ->
  (forall i, settled_at (sort_payers ps) i) \/ no_creditor (sort_payers ps).
Proof.
  assert (forall (P : Payer -> Prop) l, (forall k p, l !! k = Some p -> P p) ->
    forall k p, sort_payers l !! k = Some p -> P p) as Hperm.
  { intros P l H k p Hk. apply list_elem_of_lookup_2 in Hk.
    rewrite sort_payers_perm in Hk. apply list_elem_of_lookup in Hk as [k' Hk'].
    exact (H k' p Hk'). }
  intros [H | H]; [left | right].
  - intros i p. apply (Hperm (fun p => owes_money p = false) ps).
    intros k q Hq. exact (H k q Hq).
  - intros j r. apply (Hperm (fun p => is_owed_money p = false) ps). exact H.
Qed.

Lemma resolve_expenses_idle expenses :
  (forall i, settled_at (input_payers expenses) i) \/ no_creditor (input_payers expenses) ->
  resolve_expenses expenses = mkState [] (sorted_payers expenses).
Proof.
  intros H. unfold resolve_expenses. cbv zeta.
  apply outer_loop_idle. cbn [payers]. apply sort_then_idle, H.
Qed.

(** * Binary64 arithmetic *)

(** ** Rounding to the nearest double *)

Lemma frac_le (A B N D : Z) :
  (0 < B)%Z -> (0 < D)%Z -> (A * D <= N * B)%Z ->
  inject_Z A / inject_Z B <= inject_Z N / inject_Z D.
Proof.
  intros HB HD H.
  assert (0 < inject_Z B) as HB' by (rewrite Zlt_Qlt in HB; exact HB).
  assert (0 < inject_Z D) as HD' by (rewrite Zlt_Qlt in HD; exact HD).
  apply Qle_shift_div_r; [exact HB' |].
  assert (inject_Z N / inject_Z D * inject_Z B == inject_Z N * inject_Z B / inject_Z D) as E
    by (field; lra).
  rewrite E. apply Qle_shift_div_l; [exact HD' |].
  rewrite <- !inject_Z_mult, <- Zle_Qle. exact H.
Qed.

Lemma frac_lt (A B N D : Z) :
  (0 < B)%Z -> (0 < D)%Z -> (A * D < N * B)%Z ->
  inject_Z A / inject_Z B < inject_Z N / inject_Z D.
Proof.
  intros HB HD H.
  assert (0 < inject_Z B) as HB' by (rewrite Zlt_Qlt in HB; exact HB).
  assert (0 < inject_Z D) as HD' by (rewrite Zlt_Qlt in HD; exact HD).
  apply Qlt_shift_div_r; [exact HB' |].
  assert (inject_Z N / inject_Z D * inject_Z B == inject_Z N * inject_Z B / inject_Z D) as E
    by (field; lra).
  rewrite E. apply Qlt_shift_div_l; [exact HD' |].
  rewrite <- !inject_Z_mult, <- Zlt_Qlt. exact H.
Qed.

Lemma two_power (n m : Z) :
  (0 <= n)%Z -> (0 <= m)%Z -> 2 ^ (n - m) == inject_Z (2 ^ n) / inject_Z (2 ^ m).
Proof.
  intros Hn Hm. rewrite Qpower_minus by lra.
  rewrite !Zpower_Qpower by assumption. reflexivity.
Qed.

(** [exponent_of] finds the binade. *)
Lemma exponent_of_spec a :
  0 < a -> 2 ^ exponent_of a <= a /\ a < 2 ^ (exponent_of a + 1).
Proof.
  intros Ha. unfold exponent_of. destruct a as [n d].
  assert (0 < n)%Z as Hn by (unfold Qlt in Ha; cbn in Ha; lia).
  cbn [Qnum Qden]. cbv zeta.
  pose proof (Z.log2_spec n Hn) as [Ln Un].
  pose proof (Z.log2_spec (Z.pos d) (Pos2Z.is_pos d)) as [Ld Ud].
  pose proof (Z.log2_nonneg n) as Nn. pose proof (Z.log2_nonneg (Z.pos d)) as Nd.
  set (ln := Z.log2 n) in *. set (ld := Z.log2 (Z.pos d)) in *.
  assert (n # d == inject_Z n / inject_Z (Z.pos d)) as E by apply Qmake_Qdiv.
  assert (0 < 2 ^ ln)%Z as Pn by (apply Z.pow_pos_nonneg; lia).
  assert (0 < 2 ^ ld)%Z as Pd by (apply Z.pow_pos_nonneg; lia).
  assert (0 < 2 ^ Z.succ ld)%Z as Pd' by (apply Z.pow_pos_nonneg; lia).
  assert (0 < 2 ^ Z.succ ln)%Z as Pn' by (apply Z.pow_pos_nonneg; lia).
  destruct (Qle_bool (2 ^ (ln - ld)) (n # d)) eqn:B.
  - apply Qle_bool_iff in B. split; [exact B |].
    replace (ln - ld + 1)%Z with (Z.succ ln - ld)%Z by lia.
    rewrite two_power by lia. rewrite E. apply frac_lt; [lia .. |]. nia.
  - split.
    + replace (ln - ld - 1)%Z with (ln - Z.succ ld)%Z by lia.
      rewrite two_power by lia. rewrite E. apply frac_le; [lia .. |]. nia.
    + replace (ln - ld - 1 + 1)%Z with (ln - ld)%Z by lia.
      apply Qnot_le_lt. intros C. apply Qle_bool_iff in C. congruence.
Qed.

#[global] Instance b64_comp : Proper (Qeq ==> eq) b64.
Proof.
  intros x y H. unfold b64. rewrite (Qred_complete x y H). reflexivity.
Qed.

Lemma b64_0 : b64 0 = 0.
Proof. reflexivity. Qed.

(** The doubles written [0.1] and [0.38]. *)
Example b64_tenth :
  b64 (1 # 10) = 3602879701896397 # 36028797018963968
  /\ b64 (38 # 100) = 3422735716801577 # 9007199254740992.
Proof. split; vm_compute; reflexivity. Qed.

(** One rounding is off by at most [2 ^ -53] of the size of the number, or
    of 1 for the numbers below 1. *)
Lemma b64_error x : Qabs (b64 x - x) <= unit_roundoff * (Qabs x + 1).
Proof.
  unfold b64. cbv zeta.
  assert (Qred x == x) as Ex by apply Qred_correct.
  destruct (Qeq_bool (Qred x) 0) eqn:Z0.
  { apply Qeq_bool_iff in Z0. rewrite Ex in Z0. rewrite Z0.
    unfold Qle. cbn. lia. }
  apply Qeq_bool_false in Z0. rewrite Ex in Z0.
  assert (0 < Qabs x) as Hpos.
  { destruct (Qlt_le_dec x 0).
    - rewrite Qabs_neg by lra. lra.
    - rewrite Qabs_pos by lra. destruct (Qeq_dec x 0); [contradiction | lra]. }
  assert (Qabs (Qred x) == Qabs x) as Ea by (rewrite Ex; reflexivity).
  destruct (exponent_of_spec (Qabs (Qred x))) as [Lo _]; [rewrite Ea; exact Hpos |].
  set (ex := exponent_of (Qabs (Qred x))) in *.
  set (e := Z.max (ex - 52) (-1074)).
  set (s := 2 ^ e).
  assert (0 < s) as Hs by (apply Qpower_0_lt; lra).
  assert (s <= 2 * unit_roundoff * (Qabs x + 1)) as Hbound.
  { subst s e. destruct (Z.max_spec (ex - 52) (-1074)) as [[_ ->] | [_ ->]].
    - assert (2 ^ (-1074) <= 2 * unit_roundoff) as H by (vm_compute; discriminate).
      unfold unit_roundoff in *. lra.
    - rewrite Qpower_minus by lra. rewrite Ea in Lo.
      assert (2 ^ 52 == 4503599627370496) as -> by reflexivity.
      assert (0 < 2 ^ ex) as Hp by (apply Qpower_0_lt; lra).
      unfold unit_roundoff.
      apply Qle_shift_div_r; [lra |]. lra. }
  rewrite Qred_correct.
  pose proof (round_half_even_lower (Qred x / s)) as L.
  pose proof (round_half_even_upper (Qred x / s)) as U.
  set (m := inject_Z (round_half_even (Qred x / s))) in *.
  assert (Qred x / s * s == x) as Et by (rewrite Ex; field; lra).
  assert ((m - (1 # 2)) * s <= Qred x / s * s) as L'
    by (apply Qmult_le_compat_r; lra).
  assert (Qred x / s * s <= (m + (1 # 2)) * s) as U'
    by (apply Qmult_le_compat_r; lra).
  rewrite Et in L', U'.
  apply Qabs_Qle_condition. split; lra.
Qed.

(** ** Rounding near whole cents *)

Lemma round_half_even_unique t (K : Z) :
  Qabs (t - inject_Z K) < 1 # 2 -> round_half_even t = K.
Proof.
  intros H. pose proof (round_half_even_lower t) as L.
  pose proof (round_half_even_upper t) as U.
  assert (- (1 # 2) < t - inject_Z K /\ t - inject_Z K < 1 # 2) as [H1 H2].
  { destruct (Qlt_le_dec (t - inject_Z K) 0) as [C | C].
    - rewrite Qabs_neg in H by lra. lra.
    - rewrite Qabs_pos in H by lra. lra. }
  assert (inject_Z (round_half_even t) < inject_Z (K + 1)) as A
    by (rewrite inject_Z_plus; change (inject_Z 1) with 1; lra).
  assert (inject_Z (K - 1) < inject_Z (round_half_even t)) as B
    by (replace (K - 1)%Z with (K + -1)%Z by lia; rewrite inject_Z_plus;
        change (inject_Z (-1)) with (- (1)); lra).
  rewrite <- Zlt_Qlt in A, B. lia.
Qed.

(** Near a whole number of cents, [round] returns it. *)
Lemma round_near c x :
  on_grid c -> Qabs (x - c) <= 1 # 250 -> round x PRECISION == c.
Proof.
  intros [K HK] H. pose proof (round_scaled x) as E.
  assert (c * 100 == inject_Z K) as Hc.
  { rewrite HK. cbn [PRECISION pow10]. unfold Qeq, Qmult, inject_Z. cbn. lia. }
  rewrite (round_half_even_unique (x * 100) K) in E.
  - lra.
  - apply Qabs_Qle_condition in H as [H1 H2].
    apply Qabs_case; intros; lra.
Qed.

Lemma fp_round_near c x :
  on_grid c -> Qabs (x - c) <= 1 # 250 -> fp_round x PRECISION = b64 c.
Proof.
  intros G H. unfold fp_round. apply b64_comp, round_near; assumption.
Qed.

Lemma grid_positive c : on_grid c -> 0 < c -> 1 # 100 <= c.
Proof.
  intros [K HK] H. rewrite HK in *. unfold Qlt, Qle in *. cbn in *. lia.
Qed.

Lemma grid_negative c : on_grid c -> c < 0 -> c <= - (1 # 100).
Proof.
  intros [K HK] H. rewrite HK in *. unfold Qlt, Qle in *. cbn in *. lia.
Qed.

(** The nearest double of a whole number of cents has its sign. *)
Lemma b64_sign c :
  on_grid c ->
  (Qlt_bool 0 (b64 c) = Qlt_bool 0 c)
  /\ (Qlt_bool (b64 c) 0 = Qlt_bool c 0)
  /\ (Qeq_bool (b64 c) 0 = Qeq_bool c 0).
Proof.
  intros G. pose proof (b64_error c) as He.
  apply Qabs_Qle_condition in He as [E1 E2]. unfold unit_roundoff in *.
  destruct (Q_dec c 0) as [[C | C] | C].
  - pose proof (grid_negative c G C) as Hc. rewrite (Qabs_neg c) in E1, E2 by lra.
    assert (b64 c < 0) as Hb by lra.
    split_and!.
    + rewrite !(proj2 (Qlt_bool_false _ _)); [reflexivity | lra | lra].
    + rewrite !(proj2 (Qlt_bool_iff _ _)); [reflexivity | lra | lra].
    + rewrite !(proj2 (Qeq_bool_false _ _)); [reflexivity | lra | lra].
  - pose proof (grid_positive c G C) as Hc. rewrite (Qabs_pos c) in E1, E2 by lra.
    assert (0 < b64 c) as Hb by lra.
    split_and!.
    + rewrite !(proj2 (Qlt_bool_iff _ _)); [reflexivity | lra | lra].
    + rewrite !(proj2 (Qlt_bool_false _ _)); [reflexivity | lra | lra].
    + rewrite !(proj2 (Qeq_bool_false _ _)); [reflexivity | lra | lra].
  - rewrite (b64_comp c 0 C), b64_0. split_and!.
    + rewrite !(proj2 (Qlt_bool_false _ _)); [reflexivity | lra ..].
    + rewrite !(proj2 (Qlt_bool_false _ _)); [reflexivity | lra ..].
    + rewrite !(proj2 (Qeq_bool_iff _ _)); [reflexivity | lra ..].
Qed.

Lemma min_abs_close E x y c d :
  Qabs (x - c) <= E -> Qabs (y - d) <= E ->
  Qabs (Qmin (Qabs x) (Qabs y) - Qmin (Qabs c) (Qabs d)) <= E.
Proof.
  intros Hx Hy. apply Qabs_Qle_condition in Hx as [X1 X2].
  apply Qabs_Qle_condition in Hy as [Y1 Y2]. apply Qabs_Qle_condition.
  abs_min_cases x y; abs_min_cases c d; split; lra.
Qed.

Lemma on_grid_min_abs c d :
  on_grid c -> on_grid d -> on_grid (Qmin (Qabs c) (Qabs d)).
Proof.
  intros Gc Gd. apply on_grid_abs in Gc, Gd.
  destruct (Q.min_spec (Qabs c) (Qabs d)) as [[_ E] | [_ E]]; rewrite E; assumption.
Qed.

Lemma amount_on_grid p r :
  on_grid (cashflow p) -> on_grid (cashflow r) ->
  amount_exchanged p r == Qmin (Qabs (cashflow p)) (Qabs (cashflow r)).
Proof.
  intros Gp Gr. apply round_of_grid, on_grid_min_abs; assumption.
Qed.

(** ** The two runs test alike *)

Section Agreement.
Variables (E : Q) (x p : Payer).
Hypothesis HE : E <= 1 # 250.
Hypothesis Hclose : close E x p.
Hypothesis Hgrid : on_grid (cashflow p).

Lemma close_round : fp_round (cashflow x) PRECISION = b64 (cashflow p).
Proof.
  destruct Hclose as (_ & _ & H). apply fp_round_near; [exact Hgrid | lra].
Qed.

Lemma close_owes_money : fp_owes_money x = owes_money p.
Proof.
  unfold fp_owes_money, owes_money. rewrite close_round.
  rewrite (proj1 (b64_sign _ Hgrid)).
  assert (round (cashflow p) PRECISION == cashflow p) as R by (apply round_of_grid, Hgrid).
  unfold Qlt_bool. rewrite R. reflexivity.
Qed.

Lemma close_is_owed_money : fp_is_owed_money x = is_owed_money p.
Proof.
  unfold fp_is_owed_money, is_owed_money. rewrite close_round.
  rewrite (proj1 (proj2 (b64_sign _ Hgrid))).
  assert (round (cashflow p) PRECISION == cashflow p) as R by (apply round_of_grid, Hgrid).
  unfold Qlt_bool. rewrite R. reflexivity.
Qed.
End Agreement.

Lemma close_amount E x p y r :
  E <= 1 # 250 -> close E x p -> close E y r ->
  on_grid (cashflow p) -> on_grid (cashflow r) ->
  fp_amount_exchanged x y = b64 (amount_exchanged p r).
Proof.
  intros HE (_ & _ & Hx) (_ & _ & Hy) Gp Gr.
  unfold fp_amount_exchanged.
  rewrite (fp_round_near (Qmin (Qabs (cashflow p)) (Qabs (cashflow r)))).
  - apply b64_comp. symmetry. apply amount_on_grid; assumption.
  - apply on_grid_min_abs; assumption.
  - pose proof (min_abs_close E _ _ _ _ Hx Hy). lra.
Qed.

(** ** One exchange in both runs *)

Lemma step_error_nonneg M : 0 <= M -> 0 <= step_error M.
Proof. intros H. unfold step_error, unit_roundoff. lra. Qed.

Lemma tracks_weaken M E E' o s : E <= E' -> tracks M E o s -> tracks M E' o s.
Proof.
  intros HE (Hr & Hp & Hl & Hw). split_and!; try assumption.
  eapply Forall2_impl; [exact Hp |]. intros x p (? & ? & ?).
  split_and!; try assumption. lra.
Qed.

Lemma within_lookup M ps k p :
  within M ps -> ps !! k = Some p -> on_grid (cashflow p) /\ Qabs (cashflow p) <= M.
Proof. intros W H. exact (proj1 (Forall_lookup _ _) W k p H). Qed.

Lemma within_on_grid M ps : within M ps -> all_on_grid ps.
Proof. intros W. eapply Forall_impl; [exact W |]. intros ? [? _]. assumption. Qed.

(** Paying the nearest double of an amount adds at most [step_error] to the
    distance between the two balances; so does receiving it. *)
Lemma close_pay M E x p a :
  0 <= M -> 0 <= E -> E <= 1 -> close E x p -> Qabs (cashflow p) <= M ->
  0 <= a -> a <= M ->
  close (E + step_error M) (fp_pay (b64 a) x) (pay a p).
Proof.
  intros HM HE0 HE1 (Hn & Hs & Hc) Hb Ha0 HaM. split_and!; [exact Hn | exact Hs |].
  cbn [cashflow fp_pay]. rewrite cashflow_pay. unfold fp_sub.
  pose proof (b64_error a) as Ea. rewrite (Qabs_pos a) in Ea by assumption.
  pose proof (b64_error (cashflow x - b64 a)) as Ez.
  apply Qabs_Qle_condition in Ea as [Ea1 Ea2].
  apply Qabs_Qle_condition in Hc as [Hc1 Hc2].
  apply Qabs_Qle_condition in Hb as [Hb1 Hb2].
  assert (Qabs (cashflow x - b64 a) <= 2 * M + E + unit_roundoff * (M + 1)) as Hz
    by (apply Qabs_Qle_condition; unfold unit_roundoff in *; split; lra).
  apply Qabs_Qle_condition in Ez as [Ez1 Ez2].
  apply Qabs_Qle_condition. unfold step_error, unit_roundoff in *. split; lra.
Qed.

Lemma close_receive M E x p a :
  0 <= M -> 0 <= E -> E <= 1 -> close E x p -> Qabs (cashflow p) <= M ->
  0 <= a -> a <= M ->
  close (E + step_error M) (fp_receive (b64 a) x) (receive a p).
Proof.
  intros HM HE0 HE1 (Hn & Hs & Hc) Hb Ha0 HaM. split_and!; [exact Hn | exact Hs |].
  cbn [cashflow fp_receive]. rewrite cashflow_receive. unfold fp_add.
  pose proof (b64_error a) as Ea. rewrite (Qabs_pos a) in Ea by assumption.
  pose proof (b64_error (cashflow x + b64 a)) as Ez.
  apply Qabs_Qle_condition in Ea as [Ea1 Ea2].
  apply Qabs_Qle_condition in Hc as [Hc1 Hc2].
  apply Qabs_Qle_condition in Hb as [Hb1 Hb2].
  assert (Qabs (cashflow x + b64 a) <= 2 * M + E + unit_roundoff * (M + 1)) as Hz
    by (apply Qabs_Qle_condition; unfold unit_roundoff in *; split; lra).
  apply Qabs_Qle_condition in Ez as [Ez1 Ez2].
  apply Qabs_Qle_condition. unfold step_error, unit_roundoff in *. split; lra.
Qed.

Lemma close_apply_transfer M E i j a xs ps :
  0 <= M -> 0 <= E -> E <= 1 -> Forall2 (close E) xs ps -> within M ps ->
  i <> j -> 0 <= a -> a <= M ->
  Forall2 (close (E + step_error M))
    (fp_apply_transfer i j (b64 a) xs) (apply_transfer i j a ps).
Proof.
  intros HM HE0 HE1 H W Hij Ha0 HaM.
  pose proof (step_error_nonneg M HM) as Hw.
  apply Forall2_same_length_lookup. split.
  { unfold fp_apply_transfer, apply_transfer. rewrite !length_alter.
    exact (Forall2_length _ _ _ H). }
  intros k x' p' Hx' Hp'. unfold fp_apply_transfer, apply_transfer in *.
  destruct (decide (k = j)) as [-> | Hkj].
  - rewrite list_lookup_alter_eq, list_lookup_alter_ne in Hx' by congruence.
    rewrite list_lookup_alter_eq, list_lookup_alter_ne in Hp' by congruence.
    destruct (xs !! j) as [x |] eqn:Hx; [| discriminate].
    destruct (ps !! j) as [p |] eqn:Hp; [| discriminate].
    cbn in Hx', Hp'. injection Hx' as <-. injection Hp' as <-.
    apply close_receive; try assumption.
    + exact (Forall2_lookup_lr _ _ _ _ _ _ H Hx Hp).
    + apply (within_lookup _ _ _ _ W Hp).
  - rewrite list_lookup_alter_ne in Hx' by congruence.
    rewrite list_lookup_alter_ne in Hp' by congruence.
    destruct (decide (k = i)) as [-> | Hki].
    + rewrite list_lookup_alter_eq in Hx'. rewrite list_lookup_alter_eq in Hp'.
      destruct (xs !! i) as [x |] eqn:Hx; [| discriminate].
      destruct (ps !! i) as [p |] eqn:Hp; [| discriminate].
      cbn in Hx', Hp'. injection Hx' as <-. injection Hp' as <-.
      apply close_pay; try assumption.
      * exact (Forall2_lookup_lr _ _ _ _ _ _ H Hx Hp).
      * apply (within_lookup _ _ _ _ W Hp).
    + rewrite list_lookup_alter_ne in Hx' by congruence.
      rewrite list_lookup_alter_ne in Hp' by congruence.
      destruct (Forall2_lookup_lr _ _ _ _ _ _ H Hx' Hp') as (? & ? & ?).
      split_and!; try assumption. lra.
Qed.

Lemma enabled_within M ps e : enabled ps e -> within M ps -> within M (apply_event e ps).
Proof.
  intros En W. apply Forall_lookup. intros k p' Hk.
  pose proof (enabled_on_grid _ _ En (within_on_grid _ _ W)) as G'.
  split; [exact (proj1 (Forall_lookup _ _) G' k p' Hk) |].
  destruct (enabled_toward_zero _ _ En) as (T & _ & _).
  assert (k < length ps)%nat as Hlt.
  { apply lookup_lt_Some in Hk. unfold apply_event in Hk.
    rewrite apply_transfer_length in Hk. exact Hk. }
  destruct (lookup_lt_is_Some_2 _ _ Hlt) as [p Hp].
  eapply Qle_trans; [exact (T k p p' Hp Hk) |].
  apply (within_lookup _ _ _ _ W Hp).
Qed.

(** One visit of the inner loop: the two runs take the same branch, and the
    binary64 run either raises in the printer or stays next to the exact
    run. *)
Lemma sim_recipient_step ok M E i j o s payer :
  0 <= M -> 0 <= E -> E + step_error M <= 1 # 250 ->
  tracks M E o s -> payers s !! i = Some payer -> - half_unit <= cashflow payer ->
  raised (fp_recipient_step ok i o j) = true
  \/ tracks M (E + step_error M) (fp_recipient_step ok i o j) (recipient_step i s j).
Proof.
  intros HM HE0 HE T Hi Hd.
  pose proof (step_error_nonneg M HM) as Hw.
  assert (tracks M (E + step_error M) o s) as T'
    by (eapply tracks_weaken; [| exact T]; lra).
  destruct T as (Hr & Hp & Hl & W).
  unfold fp_recipient_step, recipient_step. rewrite Hr.
  destruct (payers s !! j) as [r |] eqn:Hj.
  2: { assert (out_payers o !! j = None) as ->.
       { apply lookup_ge_None. apply lookup_ge_None in Hj.
         rewrite (Forall2_length _ _ _ Hp). exact Hj. }
       right. exact T'. }
  destruct (Forall2_lookup_r _ _ _ _ _ Hp Hj) as (y & Hyj & Cy).
  rewrite Hyj.
  destruct (within_lookup _ _ _ _ W Hj) as [Gr Br].
  rewrite (close_is_owed_money E y r); [| lra | exact Cy | exact Gr].
  destruct (is_owed_money r) eqn:Ho; [| right; exact T'].
  unfold fp_pair_step, pair_step. rewrite Hr, Hi, Hj, Hyj.
  destruct (Forall2_lookup_r _ _ _ _ _ Hp Hi) as (x & Hxi & Cx).
  rewrite Hxi. cbv zeta.
  destruct (within_lookup _ _ _ _ W Hi) as [Gp Bp].
  rewrite (close_amount E x payer y r) by (lra || assumption).
  set (a := amount_exchanged payer r).
  assert (on_grid a) as Ga by apply round_on_grid.
  rewrite (proj2 (proj2 (b64_sign a Ga))).
  destruct (Qeq_bool a 0) eqn:Ea; [right; exact T' |].
  destruct (ok _) eqn:Hok; [| left; reflexivity].
  right.
  apply Qeq_bool_false in Ea. apply is_owed_money_iff in Ho.
  pose proof (exchange_arith (cashflow payer) (cashflow r) Hd Ho Ea) as (Hpos & Ha0 & _).
  fold (amount_exchanged payer r) in Ha0. fold a in Ha0.
  assert (enabled (payers s) (mkEvent i j a)) as En.
  { exists payer, r. cbn. split_and!; try assumption; try reflexivity.
    - apply owes_money_iff, Hpos.
    - apply is_owed_money_iff, Ho. }
  destruct (enabled_inv _ _ En) as (_ & _ & _ & _ & Hij & _). cbn in Hij.
  assert (a <= M) as HaM.
  { eapply Qle_trans; [| exact Bp]. subst a.
    rewrite (amount_on_grid payer r Gp Gr). apply Q.le_min_l. }
  split_and!; cbn [raised out_payers out_printed payers printed].
  - reflexivity.
  - apply close_apply_transfer; try assumption; lra.
  - apply Forall2_app; [exact Hl |]. constructor; [| constructor].
    split_and!; cbn; [apply Cx | apply Cy | reflexivity | lra | exact HaM].
  - exact (enabled_within M _ _ En W).
Qed.

(** ** The loops in both runs *)

(** After an exception nothing more is run. *)
Lemma fp_recipient_step_raised ok i o j : raised o = true -> fp_recipient_step ok i o j = o.
Proof. intros H. unfold fp_recipient_step. rewrite H. reflexivity. Qed.

Lemma fp_inner_loop_raised ok i js o : raised o = true -> fp_inner_loop ok i js o = o.
Proof.
  intros H. induction js as [| j js IH]; [reflexivity |].
  change (fp_inner_loop ok i (j :: js) o)
    with (fp_inner_loop ok i js (fp_recipient_step ok i o j)).
  rewrite fp_recipient_step_raised by exact H. exact IH.
Qed.

Lemma fp_payer_step_raised ok o i : raised o = true -> fp_payer_step ok o i = o.
Proof. intros H. unfold fp_payer_step. rewrite H. reflexivity. Qed.

Lemma fp_outer_loop_raised ok positions o :
  raised o = true -> fp_outer_loop ok positions o = o.
Proof.
  intros H. induction positions as [| i positions IH]; [reflexivity |].
  change (fp_outer_loop ok (i :: positions) o)
    with (fp_outer_loop ok positions (fp_payer_step ok o i)).
  rewrite fp_payer_step_raised by exact H. exact IH.
Qed.

Lemma recipient_step_payer i s j payer :
  payers s !! i = Some payer -> - half_unit <= cashflow payer ->
  exists payer',
    payers (recipient_step i s j) !! i = Some payer' /\ - half_unit <= cashflow payer'.
Proof.
  intros Hi Hd.
  destruct (recipient_step_spec i s j payer Hi Hd) as [[-> _] | (a & En & ->)].
  - eauto.
  - destruct (enabled_inv _ _ En) as (p0 & r0 & Hi0 & _ & _ & _ & _ & _ & _ & Ha1
      & _ & _ & _ & _ & Hi1 & _).
    cbn in Hi0, Ha1, Hi1. exists (pay a p0). split; [exact Hi1 |].
    rewrite cashflow_pay. lra.
Qed.

Lemma count_succ (n : nat) : inject_Z (Z.of_nat (S n)) == inject_Z (Z.of_nat n) + 1.
Proof.
  rewrite Nat2Z.inj_succ. unfold Z.succ. rewrite inject_Z_plus. reflexivity.
Qed.

Lemma count_nonneg (n : nat) : 0 <= inject_Z (Z.of_nat n).
Proof. change 0 with (inject_Z 0). rewrite <- Zle_Qle. lia. Qed.

Lemma count_add (n m : nat) :
  inject_Z (Z.of_nat (n + m)) == inject_Z (Z.of_nat n) + inject_Z (Z.of_nat m).
Proof. rewrite Nat2Z.inj_add, inject_Z_plus. reflexivity. Qed.

Lemma sim_inner_loop ok M i js : forall E o s payer,
  0 <= M -> 0 <= E ->
  E + inject_Z (Z.of_nat (length js)) * step_error M <= 1 # 250 ->
  tracks M E o s -> payers s !! i = Some payer -> - half_unit <= cashflow payer ->
  raised (fp_inner_loop ok i js o) = true
  \/ tracks M (E + inject_Z (Z.of_nat (length js)) * step_error M)
       (fp_inner_loop ok i js o) (inner_loop i js s).
Proof.
  induction js as [| j js IH]; intros E o s payer HM HE0 HE T Hi Hd.
  { right. eapply tracks_weaken; [| exact T].
    cbn [length]. change (inject_Z (Z.of_nat 0)) with 0. lra. }
  pose proof (step_error_nonneg M HM) as Hw.
  pose proof (count_nonneg (length js)) as Hn.
  pose proof (count_succ (length js)) as Hs.
  cbn [length] in HE |- *.
  set (n := inject_Z (Z.of_nat (length js))) in *.
  set (n' := inject_Z (Z.of_nat (S (length js)))) in *.
  assert (0 <= n * step_error M) as Hnw by (apply Qmult_le_0_compat; assumption).
  assert (n' * step_error M == n * step_error M + step_error M) as Hmul
    by (rewrite Hs; ring).
  change (fp_inner_loop ok i (j :: js) o)
    with (fp_inner_loop ok i js (fp_recipient_step ok i o j)).
  change (inner_loop i (j :: js) s) with (inner_loop i js (recipient_step i s j)).
  destruct (sim_recipient_step ok M E i j o s payer) as [R | T1];
    try assumption; [lra | |].
  { left. rewrite fp_inner_loop_raised; assumption. }
  destruct (recipient_step_payer i s j payer Hi Hd) as (payer' & Hi' & Hd').
  destruct (IH (E + step_error M) (fp_recipient_step ok i o j) (recipient_step i s j)
    payer') as [R | T2]; try assumption; try lra.
  { left. exact R. }
  right. eapply tracks_weaken; [| exact T2]. fold n. lra.
Qed.

Lemma sim_payer_step ok M E o s i :
  0 <= M -> 0 <= E ->
  E + inject_Z (Z.of_nat (length (payers s))) * step_error M <= 1 # 250 ->
  tracks M E o s ->
  raised (fp_payer_step ok o i) = true
  \/ tracks M (E + inject_Z (Z.of_nat (length (payers s))) * step_error M)
       (fp_payer_step ok o i) (payer_step s i).
Proof.
  intros HM HE0 HE T.
  pose proof (step_error_nonneg M HM) as Hw.
  pose proof (count_nonneg (length (payers s))) as Hn.
  assert (0 <= inject_Z (Z.of_nat (length (payers s))) * step_error M) as Hnw
    by (apply Qmult_le_0_compat; assumption).
  assert (tracks M (E + inject_Z (Z.of_nat (length (payers s))) * step_error M) o s)
    as T' by (eapply tracks_weaken; [| exact T]; lra).
  pose proof T as (Hr & Hp & Hl & W).
  unfold fp_payer_step, payer_step. rewrite Hr.
  destruct (payers s !! i) as [payer |] eqn:Hi.
  2: { assert (out_payers o !! i = None) as ->.
       { apply lookup_ge_None. apply lookup_ge_None in Hi.
         rewrite (Forall2_length _ _ _ Hp). exact Hi. }
       right. exact T'. }
  destruct (Forall2_lookup_r _ _ _ _ _ Hp Hi) as (x & Hxi & Cx).
  rewrite Hxi.
  destruct (within_lookup _ _ _ _ W Hi) as [Gp Bp].
  rewrite (close_owes_money E x payer); [| lra | exact Cx | exact Gp].
  destruct (owes_money payer) eqn:Ho; [| right; exact T'].
  apply owes_money_iff in Ho.
  unfold reversed_positions. rewrite (Forall2_length _ _ _ Hp).
  set (js := rev (seq 0 (length (payers s)))).
  assert (length js = length (payers s)) as Hlen
    by (subst js; rewrite length_rev, length_seq; reflexivity).
  rewrite <- Hlen. apply (sim_inner_loop ok M i js E o s payer); try assumption.
  - rewrite Hlen. exact HE.
  - unfold half_unit in *. lra.
Qed.

Lemma payer_step_length s i : length (payers (payer_step s i)) = length (payers s).
Proof.
  destruct (payer_step_spec s i) as (evs & R & _). exact (run_length _ _ _ R).
Qed.

Lemma sim_outer_loop ok M n positions : forall E o s,
  0 <= M -> 0 <= E -> length (payers s) = n ->
  E + inject_Z (Z.of_nat (length positions * n)) * step_error M <= 1 # 250 ->
  tracks M E o s ->
  raised (fp_outer_loop ok positions o) = true
  \/ tracks M (E + inject_Z (Z.of_nat (length positions * n)) * step_error M)
       (fp_outer_loop ok positions o) (outer_loop positions s).
Proof.
  induction positions as [| i positions IH]; intros E o s HM HE0 Hlen HE T.
  { right. eapply tracks_weaken; [| exact T].
    cbn [length Nat.mul]. change (inject_Z (Z.of_nat 0)) with 0. lra. }
  pose proof (step_error_nonneg M HM) as Hw.
  cbn [length Nat.mul] in HE |- *.
  pose proof (count_add n (length positions * n)) as Ha.
  pose proof (count_nonneg n) as Hn.
  pose proof (count_nonneg (length positions * n)) as Hm.
  set (cn := inject_Z (Z.of_nat n)) in *.
  set (cm := inject_Z (Z.of_nat (length positions * n))) in *.
  set (ct := inject_Z (Z.of_nat (n + length positions * n))) in *.
  assert (0 <= cn * step_error M) as Hnw by (apply Qmult_le_0_compat; assumption).
  assert (0 <= cm * step_error M) as Hmw by (apply Qmult_le_0_compat; assumption).
  assert (ct * step_error M == cn * step_error M + cm * step_error M) as Hmul
    by (rewrite Ha; ring).
  change (fp_outer_loop ok (i :: positions) o)
    with (fp_outer_loop ok positions (fp_payer_step ok o i)).
  change (outer_loop (i :: positions) s) with (outer_loop positions (payer_step s i)).
  destruct (sim_payer_step ok M E o s i) as [R | T1]; try assumption.
  { rewrite Hlen. fold cn. lra. }
  { left. rewrite fp_outer_loop_raised; assumption. }
  rewrite Hlen in T1. fold cn in T1.
  destruct (IH (E + cn * step_error M) (fp_payer_step ok o i) (payer_step s i))
    as [R | T2]; try assumption; try lra.
  { rewrite payer_step_length. exact Hlen. }
  { left. exact R. }
  right. eapply tracks_weaken; [| exact T2]. fold cm. lra.
Qed.

(** ** The sort in both runs *)

(** Rounding whole cents to doubles keeps their order, and so the sort. *)
Lemma b64_order M c d :
  on_grid c -> on_grid d -> Qabs c <= M -> Qabs d <= M ->
  unit_roundoff * (M + 1) < 1 # 200 ->
  Qlt_bool (- b64 d) (- b64 c) = Qlt_bool (- d) (- c).
Proof.
  intros Gc Gd Bc Bd HM.
  pose proof (b64_error c) as Ec. pose proof (b64_error d) as Ed.
  apply Qabs_Qle_condition in Ec as [Ec1 Ec2].
  apply Qabs_Qle_condition in Ed as [Ed1 Ed2].
  unfold unit_roundoff in *.
  destruct (Qlt_le_dec c d) as [L | L].
  - assert (1 # 100 <= d - c) as H
      by (apply grid_positive; [apply on_grid_plus; [| apply on_grid_opp]; assumption | lra]).
    rewrite !(proj2 (Qlt_bool_iff _ _)); [reflexivity | lra ..].
  - apply Qle_lt_or_eq in L as [L | L].
    + assert (1 # 100 <= c - d) as H
        by (apply grid_positive; [apply on_grid_plus; [| apply on_grid_opp]; assumption | lra]).
      rewrite !(proj2 (Qlt_bool_false _ _)); [reflexivity | lra ..].
    + rewrite (b64_comp d c L).
      rewrite !(proj2 (Qlt_bool_false _ _)); [reflexivity | lra ..].
Qed.

Lemma to_double_rows e :
  map payer_of_row (map double_row e) = map to_double (map payer_of_row e).
Proof. rewrite !map_map. apply map_ext. intros [[n sp] cf]. reflexivity. Qed.

Lemma insert_sorted_double M x l :
  unit_roundoff * (M + 1) < 1 # 200 -> within M (x :: l) ->
  insert_sorted (to_double x) (map to_double l) = map to_double (insert_sorted x l).
Proof.
  intros HM W. apply Forall_cons in W as [[Gx Bx] W].
  induction l as [| y l IH]; [reflexivity |].
  apply Forall_cons in W as [[Gy By] W]. cbn [map insert_sorted].
  unfold sort_key. cbn [cashflow to_double].
  rewrite (b64_order M (cashflow x) (cashflow y)) by assumption.
  destruct (Qlt_bool _ _); cbn [map]; [rewrite (IH W) |]; reflexivity.
Qed.

Lemma sort_payers_double M l :
  unit_roundoff * (M + 1) < 1 # 200 -> within M l ->
  sort_payers (map to_double l) = map to_double (sort_payers l).
Proof.
  intros HM W. induction l as [| x l IH]; [reflexivity |].
  apply Forall_cons in W as [Wx W]. cbn [map sort_payers]. rewrite (IH W).
  apply (insert_sorted_double M); [exact HM |]. apply Forall_cons.
  split; [exact Wx |]. unfold within. rewrite sort_payers_perm. exact W.
Qed.

Lemma to_double_close M ps :
  within M ps -> Forall2 (close (unit_roundoff * (M + 1))) (map to_double ps) ps.
Proof.
  induction 1 as [| p ps [G B] _ IH]; constructor; [| exact IH].
  split_and!; [reflexivity .. |]. cbn [cashflow to_double].
  pose proof (b64_error (cashflow p)) as H. unfold unit_roundoff in *. lra.
Qed.

(** ** The whole run in both arithmetics *)

(** The bound on the size of the input that keeps the two runs within
    0.004 of each other. *)
Lemma budget_enough M n :
  0 <= M -> (0 < n)%nat ->
  inject_Z (Z.of_nat (n * n)) * (M + 1) <= 1000000000000 ->
  error_budget M n <= 1 # 250
  /\ unit_roundoff * (M + 1) < 1 # 200
  /\ inject_Z (Z.of_nat n) * (unit_roundoff * (M + 1)) <= 1 # 250
  /\ unit_roundoff * (M + 1) <= 1 # 250.
Proof.
  intros HM Hn H. unfold error_budget, step_error, unit_roundoff.
  set (N := inject_Z (Z.of_nat (n * n))) in *.
  set (n1 := inject_Z (Z.of_nat n)).
  assert (1 <= n1) as H1 by (change 1 with (inject_Z 1); subst n1; rewrite <- Zle_Qle; lia).
  assert (n1 <= N) as H2 by (subst n1 N; rewrite <- Zle_Qle; nia).
  assert (0 <= (N - 1) * (M + 1)) as H3 by (apply Qmult_le_0_compat; lra).
  assert (0 <= (N - n1) * (M + 1)) as H4 by (apply Qmult_le_0_compat; lra).
  split_and!; lra.
Qed.

Lemma sorted_payers_length e : length (sorted_payers e) = length e.
Proof.
  unfold sorted_payers, input_payers.
  rewrite (Permutation_length (sort_payers_perm _)). apply length_map.
Qed.

Lemma sim_resolve_expenses ok M e :
  0 <= M -> within M (input_payers e) -> unit_roundoff * (M + 1) < 1 # 200 ->
  error_budget M (length e) <= 1 # 250 ->
  raised (fp_resolve_expenses ok (map double_row e)) = true
  \/ tracks M (error_budget M (length e))
       (fp_resolve_expenses ok (map double_row e)) (resolve_expenses e).
Proof.
  intros HM W Hu HB. unfold fp_resolve_expenses, resolve_expenses. cbv zeta.
  rewrite to_double_rows. fold (input_payers e).
  rewrite (sort_payers_double M) by assumption.
  fold (sorted_payers e). pose proof (sorted_payers_length e) as Hlen.
  assert (within M (sorted_payers e)) as Ws
    by (unfold within, sorted_payers; rewrite sort_payers_perm; exact W).
  set (ps := sorted_payers e) in *. rewrite length_map.
  assert (tracks M (unit_roundoff * (M + 1))
            (mkOutcome [] (map to_double ps) false) (mkState [] ps)) as T0.
  { split_and!; cbn; [reflexivity | apply to_double_close, Ws | constructor | exact Ws]. }
  unfold error_budget in *. rewrite <- Hlen in *.
  replace (length ps * length ps)%nat
    with (length (seq 0 (length ps)) * length ps)%nat in * by (rewrite length_seq; reflexivity).
  apply sim_outer_loop; try assumption; [| reflexivity].
  unfold unit_roundoff. lra.
Qed.

(** ** Whole cents, stored as doubles *)





(** A run on whole cents stored as doubles that has not raised is within
    four thousandths of the run in exact arithmetic. *)
Lemma whole_cents_tracked ok M e :
  e <> [] ->
  all_on_grid (input_payers e) ->
  Forall (fun p => Qabs (cashflow p) <= M) (input_payers e) ->
  inject_Z (Z.of_nat (length e * length e)) * (M + 1) <= 1000000000000 ->
  raised (fp_resolve_expenses ok (map double_row e)) = false ->
  0 <= M
  /\ unit_roundoff * (M + 1) <= 1 # 250
  /\ inject_Z (Z.of_nat (length e)) * (unit_roundoff * (M + 1)) <= 1 # 250
  /\ exists E, E <= 1 # 250
       /\ tracks M E (fp_resolve_expenses ok (map double_row e)) (resolve_expenses e).
Proof.
  intros Hne G B HB Hr.
  assert (0 <= M) as HM.
  { destruct e as [| r e]; [congruence |]. apply Forall_inv in B.
    eapply Qle_trans; [apply Qabs_nonneg | exact B]. }
  assert (0 < length e)%nat as Hlen by (destruct e; [congruence | cbn; lia]).
  destruct (budget_enough M (length e) HM Hlen HB) as (H1 & H2 & H3 & H4).
  assert (within M (input_payers e)) as W by (apply Forall_and; split; assumption).
  split_and!; try assumption.
  exists (error_budget M (length e)). split; [exact H1 |].
  destruct (sim_resolve_expenses ok M e HM W H2 H1) as [R | T]; [congruence | exact T].
Qed.



(** The tests on a balance are those of exact arithmetic: the double that
    [round] returns has the sign of the decimal. *)
Lemma fp_owes_money_eq p : fp_owes_money p = owes_money p.
Proof.
  unfold fp_owes_money, owes_money, fp_round.
  apply (proj1 (b64_sign _ (round_on_grid _))).
Qed.

Lemma fp_is_owed_money_eq p : fp_is_owed_money p = is_owed_money p.
Proof.
  unfold fp_is_owed_money, is_owed_money, fp_round.
  apply (proj1 (proj2 (b64_sign _ (round_on_grid _)))).
Qed.

(** ** The loops and the order of the specification *)

Lemma fp_recipient_step_visit ok i o j :
  fp_recipient_step ok i o j
  = if negb (raised o) && creditor_now o j then fp_pair_step ok i j o else o.
Proof.
  unfold fp_recipient_step, creditor_now, fp_is_owed_money.
  destruct (raised o); [reflexivity |]. cbn [negb andb].
  destruct (out_payers o !! j); reflexivity.
Qed.




(** ** Lines are only added *)

Lemma fp_pair_step_printed ok i j o :
  exists k, out_printed (fp_pair_step ok i j o) = out_printed o ++ k.
Proof.
  unfold fp_pair_step.
  destruct (raised o); [exists []; rewrite app_nil_r; reflexivity |].
  destruct (out_payers o !! i) as [p |]; [| exists []; rewrite app_nil_r; reflexivity].
  destruct (out_payers o !! j) as [q |]; [| exists []; rewrite app_nil_r; reflexivity].
  cbv zeta.
  destruct (Qeq_bool _ _); [exists []; rewrite app_nil_r; reflexivity |].
  destruct (ok _); [eexists; reflexivity | exists []; rewrite app_nil_r; reflexivity].
Qed.

Lemma fp_recipient_step_printed ok i o j :
  exists k, out_printed (fp_recipient_step ok i o j) = out_printed o ++ k.
Proof.
  rewrite fp_recipient_step_visit.
  destruct (_ && _); [apply fp_pair_step_printed | exists []; rewrite app_nil_r; reflexivity].
Qed.

Lemma fp_inner_loop_printed ok i js : forall o,
  exists k, out_printed (fp_inner_loop ok i js o) = out_printed o ++ k.
Proof.
  induction js as [| j js IH]; intros o; [exists []; rewrite app_nil_r; reflexivity |].
  change (fp_inner_loop ok i (j :: js) o)
    with (fp_inner_loop ok i js (fp_recipient_step ok i o j)).
  destruct (IH (fp_recipient_step ok i o j)) as [k2 ->].
  destruct (fp_recipient_step_printed ok i o j) as [k1 ->].
  exists (k1 ++ k2). rewrite app_assoc. reflexivity.
Qed.

Lemma fp_payer_step_printed ok o i :
  exists k, out_printed (fp_payer_step ok o i) = out_printed o ++ k.
Proof.
  unfold fp_payer_step.
  destruct (raised o); [exists []; rewrite app_nil_r; reflexivity |].
  destruct (out_payers o !! i) as [p |]; [| exists []; rewrite app_nil_r; reflexivity].
  destruct (fp_owes_money p);
    [apply fp_inner_loop_printed | exists []; rewrite app_nil_r; reflexivity].
Qed.

Lemma fp_outer_loop_printed ok positions : forall o,
  exists k, out_printed (fp_outer_loop ok positions o) = out_printed o ++ k.
Proof.
  induction positions as [| i positions IH]; intros o;
    [exists []; rewrite app_nil_r; reflexivity |].
  change (fp_outer_loop ok (i :: positions) o)
    with (fp_outer_loop ok positions (fp_payer_step ok o i)).
  destruct (IH (fp_payer_step ok o i)) as [k2 ->].
  destruct (fp_payer_step_printed ok o i) as [k1 ->].
  exists (k1 ++ k2). rewrite app_assoc. reflexivity.
Qed.

(** The first visit of the loops, when the first record owes money and the
    last is owed money. *)
Lemma fp_first_exchange ok (expenses : list Row) (p q : Payer) :
  head (sorted_payers expenses) = Some p ->
  last (sorted_payers expenses) = Some q ->
  fp_owes_money p = true -> fp_is_owed_money q = true ->
  let line := mkTransfer (name p) (fp_amount_exchanged p q) (name q) in
  0 < t_amount line
  /\ (ok line = true ->
      exists rest, out_printed (fp_resolve_expenses ok expenses) = line :: rest)
  /\ (ok line = false ->
      fp_resolve_expenses ok expenses = mkOutcome [] (sorted_payers expenses) true).
Proof.
  intros Hh Hl Ho Hr line.
  assert (0 < t_amount line) as Hpos.
  { cbn [line t_amount]. unfold fp_amount_exchanged, fp_round.
    rewrite fp_owes_money_eq in Ho. rewrite fp_is_owed_money_eq in Hr.
    apply owes_money_iff in Ho. apply is_owed_money_iff in Hr.
    set (m := Qmin (Qabs (cashflow p)) (Qabs (cashflow q))).
    assert (0 < round m PRECISION) as Hm.
    { apply round_pos_iff. subst m. unfold half_unit in *.
      abs_min_cases (cashflow p) (cashflow q); lra. }
    apply Qlt_bool_iff. rewrite (proj1 (b64_sign _ (round_on_grid m))).
    apply Qlt_bool_iff, Hm. }
  split; [exact Hpos |].
  unfold fp_resolve_expenses. fold (input_payers expenses).
  fold (sorted_payers expenses). cbv zeta.
  set (ps := sorted_payers expenses) in *. set (o0 := mkOutcome [] ps false).
  destruct ps as [| p0 l] eqn:Eps; [discriminate |]. injection Hh as ->.
  rewrite last_lookup in Hl. cbn [length Nat.pred] in Hl.
  cbn [length seq].
  change (fp_outer_loop ok (0%nat :: seq 1 (length l)) o0)
    with (fp_outer_loop ok (seq 1 (length l)) (fp_payer_step ok o0 0)).
  assert (fp_payer_step ok o0 0
          = fp_inner_loop ok 0 (rev (seq 0 (length l))) (fp_pair_step ok 0 (length l) o0))
    as E1.
  { unfold fp_payer_step. cbn [raised o0 out_payers]. cbn [lookup list_lookup].
    rewrite Ho. cbn [length]. rewrite seq_S, rev_app_distr. cbn [rev app Nat.add].
    change (fp_inner_loop ok 0 (length l :: rev (seq 0 (length l))) o0)
      with (fp_inner_loop ok 0 (rev (seq 0 (length l)))
              (fp_recipient_step ok 0 o0 (length l))).
    f_equal. unfold fp_recipient_step. cbn [raised o0 out_payers].
    rewrite Hl, Hr. reflexivity. }
  assert (Qeq_bool (fp_amount_exchanged p q) 0 = false) as Hnz.
  { apply Qeq_bool_false. cbn [line t_amount] in Hpos. lra. }
  assert (fp_pair_step ok 0 (length l) o0
          = if ok line
            then mkOutcome [line] (fp_apply_transfer 0 (length l) (t_amount line) (p :: l))
                   false
            else mkOutcome [] (p :: l) true) as E2.
  { unfold fp_pair_step. cbn [raised o0 out_payers out_printed].
    rewrite Hl. cbn [lookup list_lookup]. cbv zeta. rewrite Hnz. reflexivity. }
  rewrite E1, E2. split; intros Hok; rewrite Hok.
  - destruct (fp_outer_loop_printed ok (seq 1 (length l))
                (fp_inner_loop ok 0 (rev (seq 0 (length l)))
                   (mkOutcome [line]
                      (fp_apply_transfer 0 (length l) (t_amount line) (p :: l)) false)))
      as [k2 ->].
    destruct (fp_inner_loop_printed ok 0 (rev (seq 0 (length l)))
                (mkOutcome [line]
                   (fp_apply_transfer 0 (length l) (t_amount line) (p :: l)) false))
      as [k1 ->].
    exists (k1 ++ k2). reflexivity.
  - rewrite fp_inner_loop_raised by reflexivity.
    rewrite fp_outer_loop_raised by reflexivity. reflexivity.
Qed.

(** ** What the binary64 run prints *)

Lemma fp_amount_cents p q :
  Qeq_bool (fp_amount_exchanged p q) 0 = false ->
  exists k : Z, (0 < k)%Z /\ fp_amount_exchanged p q = b64 (k # 100).
Proof.
  intros H. unfold fp_amount_exchanged, fp_round in *.
  set (m := Qmin (Qabs (cashflow p)) (Qabs (cashflow q))) in *.
  rewrite (proj2 (proj2 (b64_sign _ (round_on_grid m)))) in H.
  apply Qeq_bool_false in H.
  assert (0 <= round m PRECISION) as H0.
  { apply round_nonneg. subst m. abs_min_cases (cashflow p) (cashflow q); lra. }
  destruct (round_on_grid m) as [k Hk]. exists k. split.
  - rewrite Hk in H, H0. cbn [PRECISION pow10] in H, H0.
    unfold Qeq, Qle in *. cbn in *. lia.
  - apply b64_comp. exact Hk.
Qed.

Lemma fp_pair_step_cents ok i j o :
  Forall cents_line (out_printed o) ->
  Forall cents_line (out_printed (fp_pair_step ok i j o)).
Proof.
  intros H. unfold fp_pair_step. destruct (raised o); [exact H |].
  destruct (out_payers o !! i) as [p |]; [| exact H].
  destruct (out_payers o !! j) as [q |]; [| exact H]. cbv zeta.
  destruct (Qeq_bool _ _) eqn:E; [exact H |].
  destruct (ok _); [| exact H]. cbn [out_printed].
  apply Forall_app. split; [exact H |]. constructor; [| constructor].
  apply fp_amount_cents, E.
Qed.

Lemma fp_inner_loop_cents ok i js : forall o,
  Forall cents_line (out_printed o) ->
  Forall cents_line (out_printed (fp_inner_loop ok i js o)).
Proof.
  induction js as [| j js IH]; intros o H; [exact H |].
  change (fp_inner_loop ok i (j :: js) o)
    with (fp_inner_loop ok i js (fp_recipient_step ok i o j)).
  apply IH. rewrite fp_recipient_step_visit.
  destruct (_ && _); [apply fp_pair_step_cents, H | exact H].
Qed.

Lemma fp_outer_loop_cents ok positions : forall o,
  Forall cents_line (out_printed o) ->
  Forall cents_line (out_printed (fp_outer_loop ok positions o)).
Proof.
  induction positions as [| i positions IH]; intros o H; [exact H |].
  change (fp_outer_loop ok (i :: positions) o)
    with (fp_outer_loop ok positions (fp_payer_step ok o i)).
  apply IH. unfold fp_payer_step. destruct (raised o); [exact H |].
  destruct (out_payers o !! i) as [p |]; [| exact H].
  destruct (fp_owes_money p); [apply fp_inner_loop_cents, H | exact H].
Qed.

Lemma line_close_double M log' log :
  Forall2 (line_close M) log' log -> log' = map double_line log.
Proof.
  induction 1 as [| t' t log' log (Hf & Ht & Ha & _) _ IH]; [reflexivity |].
  cbn [map]. f_equal; [| exact IH].
  destruct t' as [f a t0]. cbn in Hf, Ht, Ha. subst. reflexivity.
Qed.

(** * The claims *)

Local Open Scope string_scope.

(** C4.  The three scenarios of the specification, at precision 2 and for
    any amounts spent: balances 30, -10, -20 print [A 20 -> C] then
    [A 10 -> B]; balances 15, -15 print [A 15 -> B]; balances 0, 0 print
    nothing.  All final balances are 0. *)
Theorem spec_scenarios (sa sb sc : Q) :
  resolve_expenses [("A", sa, 30); ("B", sb, -10); ("C", sc, -20)]
  = mkState [mkTransfer "A" 20 "C"; mkTransfer "A" 10 "B"]
            [mkPayer "A" sa 0; mkPayer "B" sb 0; mkPayer "C" sc 0]
  /\ resolve_expenses [("A", sa, 15); ("B", sb, -15)]
     = mkState [mkTransfer "A" 15 "B"] [mkPayer "A" sa 0; mkPayer "B" sb 0]
  /\ resolve_expenses [("A", sa, 0); ("B", sb, 0)]
     = mkState [] [mkPayer "A" sa 0; mkPayer "B" sb 0].
Proof. split_and!; vm_compute; reflexivity. Qed.

(** C5.  No printed transfer has amount 0, and a pair whose rounded amount
    is 0 is skipped: nothing is printed and no balance changes. *)
Theorem no_zero_transfer (expenses : list Row) :
  Forall (fun t => ~ t_amount t == 0) (printed (resolve_expenses expenses))
  /\ (forall i j s payer recipient,
        payers s !! i = Some payer -> payers s !! j = Some recipient ->
        amount_exchanged payer recipient == 0 -> pair_step i j s = s).
Proof.
  split.
  - destruct (resolve_expenses_run expenses) as (evs & R & -> & _).
    apply run_amounts in R. induction R as [| e evs He _ IH]; cbn; constructor;
      [exact He | exact IH].
  - intros i j s payer recipient Hi Hj Ha. unfold pair_step.
    rewrite Hi, Hj. cbv zeta. apply Qeq_bool_iff in Ha. rewrite Ha. reflexivity.
Qed.

Lemma no_zero_transfer_witness :
  let s := mkState [] [mkPayer "A" 0 (1 # 1000); mkPayer "B" 0 (-3)] in
  Forall (fun t => ~ t_amount t == 0) (printed (resolve_expenses [("A", 0, 15); ("B", 0, -15)]))
  /\ pair_step 0 1 s = s.
Proof.
  intros s. destruct (no_zero_transfer [("A", 0, 15); ("B", 0, -15)]) as [H1 H2].
  split; [exact H1 |].
  apply (H2 0%nat 1%nat s (mkPayer "A" 0 (1 # 1000)) (mkPayer "B" 0 (-3)));
    reflexivity.
Defined.


(** The reverse sorted order is the order of the input balances, not of
    the balances as they stand: here the second payer visits C, who is still
    owed 5, before B, who is owed 10. *)
Example reverse_order_is_by_input_balance :
  fp_resolve_expenses plain_text
    [("D1", 0, 15); ("D2", 0, 15); ("B", 0, -10); ("C", 0, -20)]
  = mkOutcome
      [mkTransfer "D1" 15 "C"; mkTransfer "D2" 5 "C"; mkTransfer "D2" 10 "B"]
      [mkPayer "D1" 0 0; mkPayer "D2" 0 0; mkPayer "B" 0 0; mkPayer "C" 0 0] false.
Proof. vm_compute. reflexivity. Qed.

(** In exact arithmetic every exchange lowers the balance of its payer, who
    owes money, raises the balance of its recipient, who is owed money, and
    leaves no balance further from zero than it was. *)
Lemma exact_exchanges_move_toward_zero (expenses : list Row) :
  exists evs,
    exchanges toward_zero (sorted_payers expenses) evs
      (payers (resolve_expenses expenses))
    /\ printed (resolve_expenses expenses)
       = map (line_of (sorted_payers expenses)) evs.
Proof.
  destruct (resolve_expenses_run expenses) as (evs & R & P & _).
  exists evs. split; [| exact P].
  eapply exchanges_impl; [| exact R]. apply enabled_toward_zero.
Qed.

(** C7 fails in the arithmetic of the program.  One payer spent 1.50 for
    four: the three others owe 0.375 each, which is paid as 0.38 and leaves
    each of them half a cent below zero, at -0.0050000000000000044.  The
    inner loop of the payer goes on.  When CTH, who is now owed money, meets
    Car, who is owed money too, the line [CTH 0.01 -> Car] is printed and
    0.01 is taken from CTH, whose balance goes away from zero, to
    -0.015000000000000005. *)
Theorem half_cent_overshoot_is_paid_again :
  let frame :=
    [("JHC", 3 # 2, - (9 # 8)); ("Car", 0, 3 # 8); ("CTH", 0, 3 # 8);
     ("Jorrelle", 0, 3 # 8)] in
  let before := - (45035996273705 # 9007199254740992) in
  let after := - (8646911284551355 # 576460752303423488) in
  let o := fp_inner_loop plain_text 1 [3; 2; 1]%nat
             (fp_payer_step plain_text (mkOutcome [] (sorted_payers frame) false) 0) in
  let o' := fp_recipient_step plain_text 1 o 0 in
  valid_input frame
  /\ fp_resolve_expenses plain_text frame = fp_outer_loop plain_text [2; 3]%nat o'
  /\ out_payers o !! 1%nat = Some (mkPayer "CTH" 0 before)
  /\ fp_owes_money (mkPayer "CTH" 0 before) = false
  /\ out_printed o' = (out_printed o ++ [mkTransfer "CTH" (b64 (1 # 100)) "Car"])%list
  /\ out_payers o' !! 1%nat = Some (mkPayer "CTH" 0 after)
  /\ after < before < 0.
Proof.
  intros frame before after o o'. split_and!; try (vm_compute; reflexivity).
  split_and!; [discriminate | | reflexivity].
  unfold unique_names. apply (bool_decide_unpack _). vm_compute. exact I.
Qed.

(** The whole run on that frame: seven lines for three debts, two of them
    from a payer to itself. *)
Example half_cent_overshoot_lines :
  map (fun t => (t_from t, t_to t))
    (out_printed (fp_resolve_expenses plain_text
       [("JHC", 3 # 2, - (9 # 8)); ("Car", 0, 3 # 8); ("CTH", 0, 3 # 8);
        ("Jorrelle", 0, 3 # 8)]))
  = [("Car", "JHC"); ("Car", "Car"); ("CTH", "JHC"); ("CTH", "CTH");
     ("CTH", "Car"); ("Jorrelle", "JHC"); ("Jorrelle", "CTH")].
Proof. vm_compute. reflexivity. Qed.

(** C8.  Two runs on the same rows, in the same order, print the same
    transfers and leave the same balances. *)
Theorem deterministic (expenses : list Row) (r1 r2 : State) :
  r1 = resolve_expenses expenses -> r2 = resolve_expenses expenses ->
  printed r1 = printed r2 /\ payers r1 = payers r2.
Proof. intros -> ->. split; reflexivity. Qed.

Lemma deterministic_witness :
  let r := resolve_expenses [("A", 0, 30); ("B", 0, -10); ("C", 0, -20)] in
  printed r = printed r /\ payers r = payers r.
Proof.
  intros r.
  exact (deterministic [("A", 0, 30); ("B", 0, -10); ("C", 0, -20)] r r
           eq_refl eq_refl).
Defined.

(** C9.  Every exchange of the run leaves the sum of the balances as it
    was, and the sum of the final balances is the sum of the input
    balances. *)
Theorem sum_preserved (expenses : list Row) :
  (exists evs,
     exchanges (fun ps e => total (apply_event e ps) == total ps)
       (sorted_payers expenses) evs (payers (resolve_expenses expenses))
     /\ printed (resolve_expenses expenses)
        = map (line_of (sorted_payers expenses)) evs)
  /\ total (payers (resolve_expenses expenses)) == total (input_payers expenses).
Proof.
  destruct (resolve_expenses_run expenses) as (evs & R & P & _). split.
  - exists evs. split; [| exact P].
    eapply exchanges_impl; [| exact R]. apply enabled_total.
  - rewrite (run_total _ _ _ R). apply total_perm, sort_payers_perm.
Qed.

(** C10.  Only balances change: the final list holds the records of the
    sorted input, position by position, with their names and amounts spent;
    it has as many records as the input and, balances apart, is a
    permutation of it. *)
Theorem only_cashflow_changes (expenses : list Row) :
  map name (payers (resolve_expenses expenses)) = map name (sorted_payers expenses)
  /\ map spent (payers (resolve_expenses expenses)) = map spent (sorted_payers expenses)
  /\ length (payers (resolve_expenses expenses)) = length expenses
  /\ map (fun p => (name p, spent p)) (payers (resolve_expenses expenses))
     ≡ₚ map (fun r => (fst (fst r), snd (fst r))) expenses.
Proof.
  destruct (resolve_expenses_frame expenses) as [Hn Hs].
  assert (forall l l' : list Payer, map name l = map name l' -> map spent l = map spent l' ->
    map (fun p => (name p, spent p)) l = map (fun p => (name p, spent p)) l') as Hpair.
  { induction l as [| p l IH]; intros [| p' l'] H1 H2; try discriminate; [reflexivity |].
    cbn in *. injection H1 as -> H1. injection H2 as -> H2. f_equal. apply IH; assumption. }
  split_and!; try assumption.
  - rewrite <- (length_map name), Hn, length_map.
    unfold sorted_payers. rewrite (Permutation_length (sort_payers_perm _)).
    apply length_map.
  - rewrite (Hpair _ _ Hn Hs). unfold sorted_payers.
    rewrite (sort_payers_perm (input_payers expenses)). unfold input_payers.
    rewrite map_map. erewrite map_ext; [reflexivity |].
    intros [[n sp] cf]. reflexivity.
Qed.


(** The same happens on balances an equal split produces: one participant
    paid 100 for three, and is left with a balance that rounds to -0.01. *)
Example thirds_leave_a_cent :
  map (fun p => fp_round (cashflow p) PRECISION)
    (out_payers (fp_resolve_expenses plain_text
       (map double_row [("P", 100, - (200 # 3)); ("Q", 0, 100 # 3); ("R", 0, 100 # 3)])))
  = [0; 0; b64 (- (1 # 100))].
Proof. vm_compute. reflexivity. Qed.

(** And on a balance that ends in half a cent: 0.125 is paid as 0.12, and
    both records are left half a cent from zero, on the far side of the tie. *)
Example half_cent_is_left :
  let o := fp_resolve_expenses plain_text [("A", 0, 1 # 8); ("B", 0, - (1 # 8))] in
  out_printed o = [mkTransfer "A" (b64 (12 # 100)) "B"]
  /\ map cashflow (out_payers o)
     = [45035996273705 # 9007199254740992; - (45035996273705 # 9007199254740992)]
  /\ map fp_owes_money (out_payers o) = [true; false]
  /\ map fp_is_owed_money (out_payers o) = [false; true].
Proof. intros o. split_and!; vm_compute; reflexivity. Qed.






(** C1, as stated, fails: these balances sum to 5, and the run prints a
    transfer and changes A's balance from 10 to 5 and B's from -5 to 0. *)
Lemma validation_counterexample :
  let expenses := [("A", 0, 10); ("B", 0, -5)] in
  ~ valid_input expenses
  /\ resolve_expenses expenses
     = mkState [mkTransfer "A" 5 "B"] [mkPayer "A" 0 5; mkPayer "B" 0 0].
Proof.
  intros expenses. split; [| vm_compute; reflexivity].
  intros (_ & _ & H). vm_compute in H. discriminate.
Qed.

(** C1, amended.  [resolve_expenses] checks nothing about its input and
    raises no error of its own.  On no rows at all it prints no transfer and
    ends normally.  On any rows, whatever their names and their sum, when
    the first record of the sorted list owes money and the last is owed
    money, the run goes straight to their exchange: the amount is not zero
    and the line is handed to the printer; if the printer takes it, it is
    the first line printed, and if the printer raises, the run ends there
    with nothing printed and the balances as they were sorted. *)
Theorem no_validation (markup_ok : Transfer -> bool) :
  fp_resolve_expenses markup_ok [] = mkOutcome [] [] false
  /\ forall (expenses : list Row) (p q : Payer),
       head (sorted_payers expenses) = Some p ->
       last (sorted_payers expenses) = Some q ->
       fp_owes_money p = true -> fp_is_owed_money q = true ->
       let line := mkTransfer (name p) (fp_amount_exchanged p q) (name q) in
       0 < t_amount line
       /\ (markup_ok line = true ->
           exists rest,
             out_printed (fp_resolve_expenses markup_ok expenses) = line :: rest)
       /\ (markup_ok line = false ->
           fp_resolve_expenses markup_ok expenses
           = mkOutcome [] (sorted_payers expenses) true).
Proof.
  split; [reflexivity |]. intros expenses p q. apply fp_first_exchange.
Qed.

(** Two rows with one name and a sum of 5: the transfer is printed. *)
Lemma no_validation_witness :
  let expenses := [("A", 0, 10); ("A", 0, -5)] in
  ~ unique_names expenses /\ ~ sum_rounds_to_zero expenses
  /\ exists rest,
       out_printed (fp_resolve_expenses plain_text expenses)
       = mkTransfer "A" 5 "A" :: rest.
Proof.
  intros expenses. split_and!.
  - intros H. apply NoDup_cons in H as [H _]. apply H. apply list_elem_of_here.
  - intros H. vm_compute in H. discriminate.
  - apply (proj2 (no_validation plain_text) expenses
             (mkPayer "A" 0 10) (mkPayer "A" 0 (-5))); reflexivity.
Defined.

(** * Further properties of [Payer] and [resolve_expenses] *)

Local Close Scope string_scope.

(** ** Properties *)

(** X1.  The two properties of [Payer] split the balances at half a cent,
    ties excluded: a payer owes money exactly when its balance is above
    0.005, is owed money exactly when it is below -0.005, and is never
    both. *)
Theorem balance_classes (p : Payer) :
  (owes_money p = true <-> 1 # 200 < cashflow p)
  /\ (is_owed_money p = true <-> cashflow p < - (1 # 200))
  /\ ~ (owes_money p = true /\ is_owed_money p = true).
Proof.
  split_and!.
  - apply owes_money_iff.
  - apply is_owed_money_iff.
  - rewrite owes_money_iff, is_owed_money_iff. unfold half_unit. lra.
Qed.

(** X6.  When nobody owes money in the input, or nobody is owed money,
    nothing is printed and the payers are reported sorted, with their
    balances as they were. *)
Theorem nothing_to_settle (expenses : list Row) :
  Forall (fun p => owes_money p = false) (input_payers expenses)
  \/ Forall (fun p => is_owed_money p = false) (input_payers expenses) ->
  resolve_expenses expenses = mkState [] (sorted_payers expenses).
Proof.
  intros H. apply resolve_expenses_idle. destruct H as [H | H]; [left | right].
  - intros i. unfold settled_at. rewrite Forall_lookup in H. apply H.
  - apply no_creditor_Forall, H.
Qed.

Lemma nothing_to_settle_witness :
  resolve_expenses [("A", 0, 5); ("B", 0, 3)]%string
  = mkState [] (sorted_payers [("A", 0, 5); ("B", 0, 3)]%string).
Proof.
  apply nothing_to_settle. right. repeat constructor.
Defined.

(** X19.  In the arithmetic of the program too, the two properties of
    [Payer] split the balances at half a cent, ties excluded: a payer owes
    money exactly when the number its balance denotes is above 0.005, is
    owed money exactly when it is below -0.005, and is never both. *)
Theorem fp_balance_classes (p : Payer) :
  (fp_owes_money p = true <-> 1 # 200 < cashflow p)
  /\ (fp_is_owed_money p = true <-> cashflow p < - (1 # 200))
  /\ ~ (fp_owes_money p = true /\ fp_is_owed_money p = true).
Proof.
  rewrite fp_owes_money_eq, fp_is_owed_money_eq, owes_money_iff, is_owed_money_iff.
  unfold half_unit. split_and!; [reflexivity | reflexivity | lra].
Qed.

(** X20.  On every input, every amount handed to the printer is the double
    nearest to a positive whole number of cents. *)
Theorem fp_transfer_amounts (markup_ok : Transfer -> bool) (expenses : list Row) :
  Forall cents_line (out_printed (fp_resolve_expenses markup_ok expenses)).
Proof.
  unfold fp_resolve_expenses. cbv zeta. apply fp_outer_loop_cents. constructor.
Qed.

(** X21.  On whole numbers of cents stored as doubles, no balance larger
    than [M] and [n * n * (M + 1)] at most [10 ^ 12] for [n] rows, a run
    that ends without an exception from the printer prints the lines of the
    run in exact arithmetic, with the same names in the same order and each
    amount as its nearest double, and ends with every balance within 0.004
    of the balance the exact run ends with. *)
Theorem whole_cents_same_lines (markup_ok : Transfer -> bool) (expenses : list Row)
    (M : Q) :
  all_on_grid (input_payers expenses) ->
  Forall (fun p => Qabs (cashflow p) <= M) (input_payers expenses) ->
  inject_Z (Z.of_nat (length expenses * length expenses)) * (M + 1) <= 1000000000000 ->
  raised (fp_resolve_expenses markup_ok (map double_row expenses)) = false ->
  out_printed (fp_resolve_expenses markup_ok (map double_row expenses))
  = map double_line (printed (resolve_expenses expenses))
  /\ Forall2 (fun x p => name x = name p /\ spent x = spent p
                         /\ Qabs (cashflow x - cashflow p) <= 1 # 250)
       (out_payers (fp_resolve_expenses markup_ok (map double_row expenses)))
       (payers (resolve_expenses expenses)).
Proof.
  intros G B HB Hr.
  destruct expenses as [| r0 l] eqn:Ee; [split; [reflexivity | constructor] |].
  rewrite <- Ee in *.
  assert (expenses <> []) as Hne by (rewrite Ee; discriminate).
  destruct (whole_cents_tracked markup_ok M expenses Hne G B HB Hr)
    as (HM & _ & _ & E & HE & _ & Hp & Hl & _).
  split; [exact (line_close_double _ _ _ Hl) |].
  eapply Forall2_impl; [exact Hp |]. intros x p (Hn & Hs & Hc).
  split_and!; try assumption. lra.
Qed.

Lemma whole_cents_same_lines_witness :
  let expenses :=
    [("A", 0, 3 # 10); ("B", 0, - (1 # 10)); ("C", 0, - (1 # 5))]%string in
  out_printed (fp_resolve_expenses plain_text (map double_row expenses))
  = map double_line (printed (resolve_expenses expenses)).
Proof.
  intros expenses. apply (whole_cents_same_lines plain_text expenses 1).
  - repeat constructor; cbn; [exists 30%Z | exists (-10)%Z | exists (-20)%Z]; reflexivity.
  - repeat constructor; cbn; unfold Qle; cbn; lia.
  - unfold Qle. cbn. lia.
  - vm_compute. reflexivity.
Defined.

(** * Properties of [main] *)

Lemma add_missing_spec people : NoDup people -> forall expenses,
  add_missing people expenses
  = expenses ++ map (fun p => (p, 0))
      (List.filter (fun p => negb (bool_decide (p ∈ map fst expenses))) people).
Proof.
  induction 1 as [| p people Hp ND IH]; intros expenses; cbn [add_missing fold_left].
  { cbn. rewrite app_nil_r. reflexivity. }
  fold (add_missing people (add_person expenses p)).
  unfold add_person. cbn [List.filter]. destruct (bool_decide_reflect (p ∈ map fst expenses)) as [Hin | Hin];
    cbn [negb]; [apply IH |].
  rewrite IH, <- app_assoc. cbn [map app]. do 3 f_equal.
  apply List.filter_ext_in. intros q Hq. f_equal. apply bool_decide_ext.
  rewrite map_app. cbn. rewrite elem_of_app, list_elem_of_singleton.
  split; [| tauto]. intros [? | ->]; [assumption |].
  exfalso. apply Hp, list_elem_of_In, Hq.
Qed.

Lemma PEOPLE_NoDup : NoDup PEOPLE.
Proof. apply (bool_decide_unpack _). vm_compute. exact I. Qed.

Lemma with_cashflow_spending expenses :
  map (fun r : Row => (fst (fst r), snd (fst r))) (with_cashflow expenses) = expenses.
Proof.
  unfold with_cashflow. rewrite map_map. rewrite <- (map_id expenses) at 2.
  apply map_ext. intros [n sp]. reflexivity.
Qed.

Lemma with_cashflow_names expenses :
  map name (input_payers (with_cashflow expenses)) = map fst expenses.
Proof.
  unfold input_payers, with_cashflow. rewrite !map_map. apply map_ext.
  intros [n sp]. reflexivity.
Qed.

Lemma NoDup_list_filter {A} (f : A -> bool) (l : list A) :
  NoDup l -> NoDup (List.filter f l).
Proof.
  induction 1 as [| x l Hx _ IH]; cbn; [constructor |].
  destruct (f x); [| exact IH]. constructor; [| exact IH].
  intros Hf. apply Hx. apply list_elem_of_In, filter_In in Hf as [Hf _].
  apply list_elem_of_In, Hf.
Qed.

Lemma add_missing_names_NoDup expenses :
  NoDup (map fst expenses) -> NoDup (map fst (add_missing PEOPLE expenses)).
Proof.
  intros ND. rewrite (add_missing_spec PEOPLE PEOPLE_NoDup), map_app, map_map.
  cbn [fst]. rewrite map_id. apply NoDup_app. split_and!; [exact ND | |].
  - intros x Hx Hf. apply list_elem_of_In, filter_In in Hf as [_ Hf].
    apply negb_true_iff, bool_decide_eq_false in Hf. contradiction.
  - apply NoDup_list_filter, PEOPLE_NoDup.
Qed.

Lemma add_missing_roster expenses :
  Forall (fun p => p ∈ map fst (add_missing PEOPLE expenses)) PEOPLE.
Proof.
  rewrite (add_missing_spec PEOPLE PEOPLE_NoDup), map_app, map_map.
  cbn [fst]. rewrite map_id. apply Forall_forall. intros p Hp. apply elem_of_app.
  destruct (decide (p ∈ map fst expenses)) as [Hin | Hin]; [left; exact Hin | right].
  apply list_elem_of_In, filter_In. split; [apply list_elem_of_In, Hp |].
  apply negb_true_iff, bool_decide_eq_false, Hin.
Qed.

Lemma remove_dups_NoDup (l : list string) : NoDup l -> remove_dups l = l.
Proof.
  induction 1 as [| x l Hx _ IH]; [reflexivity |]. cbn.
  destruct (decide_rel elem_of x l); [contradiction | rewrite IH; reflexivity].
Qed.

Lemma prepare_unique grouped :
  NoDup (map fst grouped) -> unique_names (prepare grouped).
Proof.
  intros ND. unfold unique_names, prepare. rewrite with_cashflow_names.
  apply add_missing_names_NoDup, ND.
Qed.
(** X11.  [main] keeps the grouped rows, in order and with their amounts,
    and appends a row with nothing spent for each person of [PEOPLE] who is
    missing, in the order of [PEOPLE]; so every person of [PEOPLE] has a
    row. *)
Theorem roster_completed (grouped : list Spending) :
  map (fun r : Row => (fst (fst r), snd (fst r))) (prepare grouped)
  = grouped ++ map (fun p => (p, 0))
      (List.filter (fun p => negb (bool_decide (p ∈ map fst grouped))) PEOPLE)
  /\ Forall (fun p => p ∈ map (fun r : Row => fst (fst r)) (prepare grouped)) PEOPLE.
Proof.
  unfold prepare. split.
  - rewrite with_cashflow_spending. apply add_missing_spec, PEOPLE_NoDup.
  - assert (map (fun r : Row => fst (fst r)) (with_cashflow (add_missing PEOPLE grouped))
            = map fst (add_missing PEOPLE grouped)) as E.
    { unfold with_cashflow. rewrite map_map. apply map_ext. intros [n sp]. reflexivity. }
    rewrite E. apply add_missing_roster.
Qed.

(** X12.  When the grouped frame has one row per payer, so has the frame
    handed to [resolve_expenses]. *)
Theorem prepare_keeps_names_unique (grouped : list Spending) :
  NoDup (map fst grouped) -> unique_names (prepare grouped).
Proof. apply prepare_unique. Qed.

Lemma prepare_keeps_names_unique_witness :
  unique_names (prepare [("JHC", 100); ("Bob", 20)]%string).
Proof.
  apply prepare_keeps_names_unique. apply (bool_decide_unpack _). vm_compute. exact I.
Defined.

Lemma stable_sort_unique_witness :
  let a := mkPayer "A" 0 30 in
  let b := mkPayer "B" 0 (-10) in
  [a; b] = sort_payers [b; a].
Proof.
  intros a b. apply stable_sort_unique.
  - apply StronglySorted_cons. split.
    + constructor; [unfold descending; cbn; lra | constructor].
    + apply StronglySorted_cons. split; constructor.
  - intros c. unfold with_balance. cbn.
    destruct (Qeq_bool 30 c) eqn:E1, (Qeq_bool (-10) c) eqn:E2; try reflexivity.
    apply Qeq_bool_iff in E1, E2. lra.
Defined.


